(** * ldops.cluster: cluster view aggregation and failure-domain grouping

    A shallow embedding of [logdevice/ops/ldops/cluster.py].  The functions
    of the module are translated one by one; the thrift-generated types and
    the ldops value types they import are taken as parameters. *)

From stdpp Require Import base decidable countable list gmap strings pretty sorting.

Local Open Scope Z_scope.
Set Warnings "-clear-no-such-hyp".

(** ** Imported declarations

    [logdevice.common.types] (LocationScope, SocketAddress),
    [logdevice.admin.nodes.types] (NodeState),
    [logdevice.admin.maintenance.types] and [ldops.types.socket_address] are
    imported by the module, not defined in it.  The module only relies on:
    the enum [LocationScope] being iterable, its members carrying an integer
    [value], its member [NODE]; thrift socket addresses being hashable values;
    [SocketAddress.from_thrift] converting one into the ldops address type. *)
Class Imports := {
  LocationScope : Type;
  LocationScope_eq_dec :: EqDecision LocationScope;
  LocationScope_countable :: Countable LocationScope;
  (** [x.value] *)
  value : LocationScope → Z;
  (** the members in the order [iter(LocationScope)] yields them *)
  LocationScope_members : list LocationScope;
  (** [LocationScope.NODE] *)
  NODE : LocationScope;
  (** [logdevice.common.types.SocketAddress] *)
  ThriftSocketAddress : Type;
  ThriftSocketAddress_eq_dec :: EqDecision ThriftSocketAddress;
  (** [ldops.types.socket_address.SocketAddress] and its [from_thrift] *)
  SocketAddress : Type;
  from_thrift : ThriftSocketAddress → SocketAddress;
  NodeState : Type;
  MaintenanceDefinition : Type;
}.

(** ** Python built-ins used by the module *)

(** [sorted(l, key=key, reverse=reverse)] on integer keys.  Python's sort is
    stable, also with [reverse=True]; the result of a stable sort does not
    depend on the algorithm, so it is written here as an insertion sort that
    puts an element before the first later element it may precede. *)
Definition may_precede (reverse : bool) (a b : Z) : bool :=
  if reverse then b <=? a else a <=? b.

Fixpoint insert_by {A : Type} (key : A → Z) (reverse : bool) (x : A) (l : list A)
  : list A :=
  match l with
  | [] => [x]
  | y :: l' =>
      if may_precede reverse (key x) (key y) then x :: l
      else y :: insert_by key reverse x l'
  end.

Definition sorted {A : Type} (key : A → Z) (reverse : bool) (l : list A) : list A :=
  foldr (insert_by key reverse) [] l.

(** the order [sorted] leaves its result in: ascending keys, descending
    keys with [reverse=True] *)
Definition in_order {A : Type} (key : A → Z) (reverse : bool) : relation A :=
  λ x y, may_precede reverse (key x) (key y) = true.

(** [l.count(x)] *)
Definition occurrences {A : Type} `{EqDecision A} (x : A) (l : list A) : nat :=
  length (filter (λ y, y = x) l).

(** [s.add(x)] on a [set], the set kept as the list of its elements. *)
Definition set_add {A : Type} `{EqDecision A} (x : A) (s : list A) : list A :=
  if decide (x ∈ s) then s else s ++ [x].

(** [d[k].add(x)] on a [defaultdict(set)]: a missing key is first bound to
    an empty set, at the end of the dict's (insertion) order. *)
Fixpoint dict_add {K A : Type} `{EqDecision K, EqDecision A}
    (k : K) (x : A) (d : list (K * list A)) : list (K * list A) :=
  match d with
  | [] => [(k, set_add x [])]
  | (k', s) :: d' =>
      if decide (k = k') then (k', set_add x s) :: d'
      else (k', s) :: dict_add k x d'
  end.

(** [d[k]] read without inserting: the set bound to [k], empty if none. *)
Fixpoint dict_get {K A : Type} `{EqDecision K}
    (d : list (K * list A)) (k : K) : list A :=
  match d with
  | [] => []
  | (k', s) :: d' => if decide (k = k') then s else dict_get d' k
  end.

(** Exceptions.  The AdminAPI calls raise thrift exceptions (subclasses of
    [Exception]), of which the module tells [NotSupported] apart;
    [NodeNotFoundError] belongs to [ldops.exceptions] and is raised by this
    module only; [IndexError] is what [x[0]] raises on an empty tuple and
    [AttributeError] what [x.nodes] raises on an exception object.  A call
    may also end in a [BaseException] that is no [Exception], as
    [asyncio.CancelledError] is: [BaseExceptionRaised] with the name of its
    class. *)
Inductive AdminAPIError :=
  | NotSupported (message : string)
  | OtherException (cls message : string).

Inductive exn :=
  | NodeNotFoundError (message : string)
  | IndexError
  | AttributeError
  | AdminError (e : AdminAPIError)
  | BaseExceptionRaised (cls : string).

(** The result of a coroutine: a value or a raised exception. *)
Inductive outcome (A : Type) :=
  | Return (a : A)
  | Raise (e : exn).
Arguments Return {A} a.
Arguments Raise {A} e.

Global Instance outcome_ret : MRet outcome := @Return.
Global Instance outcome_bind : MBind outcome := λ A B f m,
  match m with
  | Return a => f a
  | Raise e => Raise e
  end.

(** What one AdminAPI call comes back with; [asyncio.gather] with
    [return_exceptions=True] hands exactly this to the caller: the response,
    an exception object that is an [Exception], or one that is only a
    [BaseException] (the [CancelledError] of a cancelled call), which
    [isinstance(_, Exception)] does not recognise. *)
Inductive call_result (A : Type) :=
  | Response (a : A)
  | ExceptionObject (e : AdminAPIError)
  | BaseExceptionObject (cls : string).
Arguments Response {A} a.
Arguments ExceptionObject {A} e.
Arguments BaseExceptionObject {A} cls.

(** [await call]: the response, or the exception raised, as it is. *)
Definition await {A : Type} (r : call_result A) : outcome A :=
  match r with
  | Response a => Return a
  | ExceptionObject e => Raise (AdminError e)
  | BaseExceptionObject cls => Raise (BaseExceptionRaised cls)
  end.

(** The order in which a [set] is iterated depends on the hashes of its
    elements; all the module may rely on is that every element comes once. *)
Record HashOrder (A : Type) := {
  set_iter : list A → list A;
  set_iter_perm : ∀ s, set_iter s ≡ₚ s;
}.
Arguments set_iter {A} _ _.
Arguments set_iter_perm {A} _ _.

Definition insertion_order (A : Type) : HashOrder A :=
  {| set_iter := λ s, s; set_iter_perm := λ s, reflexivity s |}.

Definition reverse_order (A : Type) : HashOrder A :=
  {| set_iter := reverse; set_iter_perm := λ s, reverse_Permutation s |}.

(** ** The data model of the module *)
Section Model.
Context `{Imports}.

(** [logdevice.common.types.NodeID], as the module builds it in
    [group_nodes_by_scope], with its three fields set. *)
Record NodeID := {
  node_index : Z;
  address : ThriftSocketAddress;
  name : string;
}.

Global Instance NodeID_eq_dec : EqDecision NodeID.
Proof. solve_decision. Defined.

(** The [NodeID] of a [NodesFilter]: only one field is set. *)
Inductive NodeIDFilter :=
  | ByNodeIndex (i : Z)
  | ByName (n : string).

Record NodesFilter := { node : option NodeIDFilter }.

(** [logdevice.admin.nodes.types.NodeConfig], the fields the module reads. *)
Record NodeConfig := {
  nc_node_index : Z;
  nc_data_address : ThriftSocketAddress;
  nc_location_per_scope : gmap LocationScope string;
  nc_name : string;
}.

Record NodesConfigResponse := { nodes : list NodeConfig }.
Record NodesStateResponse := { states : list NodeState }.
Record MaintenanceDefinitionResponse :=
  { resp_maintenances : list MaintenanceDefinition }.

Record TolerableFailureDomain := { domain : LocationScope; count : Z }.
Record ReplicationInfo :=
  { tolerable_failure_domains : TolerableFailureDomain }.

(** [ldops.types.node.Node] *)
Record Node := {
  n_node_index : Z;
  n_data_addr : SocketAddress;
  n_name : string;
}.

(** Modelled from the spec: [ldops.types.cluster_view.ClusterView], the
    aggregate of the three fetched sequences. *)
Record ClusterView := {
  nodes_config : list NodeConfig;
  nodes_state : list NodeState;
  maintenances : list MaintenanceDefinition;
}.

(** The AdminAPI client, seen through the calls of [ldops.admin_api]. *)
Record AdminAPI := {
  getNodesConfig : NodesFilter → call_result NodesConfigResponse;
  getNodesState : call_result NodesStateResponse;
  getMaintenances : call_result MaintenanceDefinitionResponse;
  getReplicationInfo : call_result ReplicationInfo;
}.

(** [admin_api.get_nodes_config(client)] without a request *)
Definition no_filter : NodesFilter := {| node := None |}.

(** ** Node lookup *)

Definition _get_node_by_node_config (nc : NodeConfig) : Node :=
  {| n_node_index := nc_node_index nc;
     n_data_addr := from_thrift (nc_data_address nc);
     n_name := nc_name nc |}.

Definition get_node_by_node_index (client : AdminAPI) (node_index : Z)
  : outcome Node :=
  resp ← await (getNodesConfig client
                  {| node := Some (ByNodeIndex node_index) |});
  match nodes resp with
  | [] => Raise (NodeNotFoundError
                   ("Node not found: node_index=`" +:+ pretty node_index +:+ "'"))
  | nc :: _ => Return (_get_node_by_node_config nc)
  end.

Definition get_node_by_name (client : AdminAPI) (name : string)
  : outcome Node :=
  resp ← await (getNodesConfig client {| node := Some (ByName name) |});
  match nodes resp with
  | [] => Raise (NodeNotFoundError ("Node not found: name=`" +:+ name +:+ "'"))
  | nc :: _ => Return (_get_node_by_node_config nc)
  end.

(** ** Cluster view *)

Definition get_cluster_view (client : AdminAPI) : outcome ClusterView :=
  let nodes_config_resp := getNodesConfig client no_filter in
  let nodes_state_resp := getNodesState client in
  let maintenances_resp := getMaintenances client in
  maintenances ←
    match maintenances_resp with
    | ExceptionObject (NotSupported _) => Return []
    | ExceptionObject e => Raise (AdminError e)
    | Response r => Return (resp_maintenances r)
    (* neither test holds: [maintenances_resp.maintenances] is read *)
    | BaseExceptionObject _ => Raise AttributeError
    end;
  match nodes_config_resp with
  | ExceptionObject e => Raise (AdminError e)
  | _ =>
      match nodes_state_resp with
      | ExceptionObject e => Raise (AdminError e)
      | _ =>
          (* the arguments of [ClusterView(...)], from left to right *)
          match nodes_config_resp, nodes_state_resp with
          | Response nodes_config_resp, Response nodes_state_resp =>
              Return {| nodes_config := nodes nodes_config_resp;
                        nodes_state := states nodes_state_resp;
                        maintenances := maintenances |}
          | _, _ => Raise AttributeError
          end
      end
  end.

(** ** Grouping by failure domain *)

(** The key of the accumulating dict: the node index under scope NODE, a
    tuple of labels otherwise. *)
Inductive LocationKey :=
  | KIndex (i : Z)
  | KTuple (labels : list string).

Global Instance LocationKey_eq_dec : EqDecision LocationKey.
Proof. solve_decision. Defined.

(** [node_config.location_per_scope.get(scope_kind, "")] *)
Definition label (node_config : NodeConfig) (scope_kind : LocationScope)
  : string :=
  default "" (nc_location_per_scope node_config !! scope_kind).

(** the levels the generator of [location] runs through *)
Definition key_levels (scope : LocationScope) : list LocationScope :=
  filter (λ scope_kind, value scope ≤ value scope_kind)
         (sorted value true LocationScope_members).

Definition location (scope : LocationScope) (node_config : NodeConfig)
  : LocationKey :=
  if decide (scope ≠ NODE) then
    KTuple (label node_config <$> key_levels scope)
  else KIndex (nc_node_index node_config).

Definition node_id (node_config : NodeConfig) : NodeID :=
  {| node_index := nc_node_index node_config;
     address := nc_data_address node_config;
     name := nc_name node_config |}.

(** the [for] loop filling [ret] *)
Definition accumulate (scope : LocationScope) (node_configs : list NodeConfig)
  : list (LocationKey * list NodeID) :=
  foldl
    (λ ret node_config,
       dict_add (location scope node_config) (node_id node_config) ret)
    [] node_configs.

(** [x[0].node_index], the sort key of a group; [x[0]] raises on [()] *)
Definition first_node_index (x : list NodeID) : option Z :=
  node_index <$> head x.

(** the same key once it is known to exist *)
Definition group_key (x : list NodeID) : Z := default 0 (first_node_index x).

(** [sorted(groups, key=lambda x: x[0].node_index)]: the keys of all the
    groups are computed before any is compared. *)
Definition sorted_groups (groups : list (list NodeID))
  : outcome (list (list NodeID)) :=
  if forallb (λ x, bool_decide (is_Some (first_node_index x))) groups then
    Return (sorted group_key false groups)
  else Raise IndexError.

(** the generator over [ret.items()]: every set, iterated in hash order,
    sorted by node index *)
Definition tuples (h : HashOrder NodeID) (ret : list (LocationKey * list NodeID))
  : list (list NodeID) :=
  (λ kv, sorted node_index false (set_iter h kv.2)) <$> ret.

(** the expression returned: the tuples sorted by their first index *)
Definition emit (h : HashOrder NodeID) (ret : list (LocationKey * list NodeID))
  : outcome (list (list NodeID)) :=
  sorted_groups (tuples h ret).

Definition group_nodes_by_scope (h : HashOrder NodeID) (client : AdminAPI)
    (node_configs : option (list NodeConfig))
    (replication_info : option ReplicationInfo)
  : outcome (list (list NodeID)) :=
  node_configs ←
    match node_configs with
    | None => response ← await (getNodesConfig client no_filter);
              Return (nodes response)
    | Some node_configs => Return node_configs
    end;
  replication_info ←
    match replication_info with
    | None => await (getReplicationInfo client)
    | Some replication_info => Return replication_info
    end;
  let scope := domain (tolerable_failure_domains replication_info) in
  emit h (accumulate scope node_configs).

(** ** The wording of the specification, for comparison *)

(** "enumerate all defined location-scope levels, keep only those at or
    coarser than (numerically ≥) the target scope, order them from
    coarsest to finest, and for each take the node's configured label at
    that level (empty string if absent)" *)
Definition location_key_spec (scope : LocationScope) (node_config : NodeConfig)
  : list string :=
  let kept := filter (λ level, (value level >= value scope)%Z) LocationScope_members in
  let ordered := sorted value true kept in
  (λ level, match nc_location_per_scope node_config !! level with
            | Some l => l
            | None => ""
            end) <$> ordered.

(** A node configuration with a rack and a datacenter label, as in the
    scenario of the specification: [rack] and [dc] are the two enum members
    the labels are filed under. *)
Definition labelled_node (rack dc : LocationScope) (i : Z)
    (a : ThriftSocketAddress) (n : string) (rack_label dc_label : string)
  : NodeConfig :=
  {| nc_node_index := i;
     nc_data_address := a;
     nc_location_per_scope := <[rack := rack_label]> (<[dc := dc_label]> ∅);
     nc_name := n |}.

End Model.

(** ** Predicates on the three gathered results *)
Section Gathered.
Context `{Imports}.

(** the query raised *)
Definition failed {A : Type} (r : call_result A) : Prop :=
  ∃ e, r = ExceptionObject e.

(** the query raised something else than [NotSupported] *)
Definition failed_hard {A : Type} (r : call_result A) : Prop :=
  ∃ e, r = ExceptionObject e ∧ ∀ message, e ≠ NotSupported message.

(** the query ended in a [BaseException] that is no [Exception] *)
Definition cancelled {A : Type} (r : call_result A) : Prop :=
  ∃ cls, r = BaseExceptionObject cls.

(** the query answered *)
Definition answered {A : Type} (r : call_result A) : Prop :=
  ∃ a, r = Response a.

(** the filtered requests of the two lookups *)
Definition filter_by_node_index (node_index : Z) : NodesFilter :=
  {| node := Some (ByNodeIndex node_index) |}.
Definition filter_by_name (name : string) : NodesFilter :=
  {| node := Some (ByName name) |}.

End Gathered.

(** ** The other functions of the module

    [get_nodes], [get_nodes_config] and [get_nodes_state] build a frozenset
    and dicts keyed by [Node]; they need of the imported types, on top of
    [Imports], that ldops socket addresses are values compared field by
    field (a [Node] is hashed and compared through its fields) and that a
    [NodeState] carries the index of its node. *)
Class StateImports `{Imports} := {
  (** [ns.node_index] *)
  state_node_index : NodeState → Z;
  SocketAddress_eq_dec :: EqDecision SocketAddress;
}.

(** [d[k] = v] on a dict: the value of a key that is there is replaced where
    the key stands, a new key comes last. *)
Fixpoint dict_set {K V : Type} `{EqDecision K} (k : K) (v : V)
    (d : list (K * V)) : list (K * V) :=
  match d with
  | [] => [(k, v)]
  | (k', v') :: d' =>
      if decide (k = k') then (k', v) :: d' else (k', v') :: dict_set k v d'
  end.

(** [d.get(k)] *)
Fixpoint dict_lookup {K V : Type} `{EqDecision K} (d : list (K * V)) (k : K)
  : option V :=
  match d with
  | [] => None
  | (k', v) :: d' => if decide (k = k') then Some v else dict_lookup d' k
  end.

(** [{key(x): val(x) for x in l}] *)
Definition dict_comprehension {X K V : Type} `{EqDecision K}
    (key : X → K) (val : X → V) (l : list X) : list (K * V) :=
  foldl (λ d x, dict_set (key x) (val x) d) [] l.

(** [frozenset(f(x) for x in l)] *)
Definition frozenset_of {X A : Type} `{EqDecision A} (f : X → A) (l : list X)
  : list A :=
  foldl (λ s x, set_add (f x) s) [] l.

(** What [get_nodes_state] raises: [KeyError] from [d[k]] on a missing key,
    or what its calls raise. *)
Inductive raised :=
  | KeyError (key : Z)
  | Exn (e : exn).

Inductive result (A : Type) :=
  | Returned (a : A)
  | Raised (e : raised).
Arguments Returned {A} a.
Arguments Raised {A} e.

(** [await asyncio.gather(c1, c2)], without [return_exceptions]: the two
    results, or the exception of the call that fails first; which of two
    failing calls fails first is up to the event loop. *)
Definition gather2 {A B : Type} (first_fails_first : bool)
    (r1 : call_result A) (r2 : call_result B) : outcome (A * B) :=
  match await r1, await r2 with
  | Return a, Return b => Return (a, b)
  | Raise x, Return _ => Raise x
  | Return _, Raise x => Raise x
  | Raise x1, Raise x2 => Raise (if first_fails_first then x1 else x2)
  end.

Section ModelRest.
Context `{StateImports}.

Global Instance Node_eq_dec : EqDecision Node.
Proof. solve_decision. Defined.

Definition get_nodes (client : AdminAPI) : outcome (list Node) :=
  resp ← await (getNodesConfig client no_filter);
  Return (frozenset_of _get_node_by_node_config (nodes resp)).

Definition get_nodes_config (client : AdminAPI)
  : outcome (list (Node * NodeConfig)) :=
  resp ← await (getNodesConfig client no_filter);
  Return (dict_comprehension _get_node_by_node_config (λ nc, nc) (nodes resp)).

(** the dict [node_index_to_node] of [get_nodes_state] *)
Definition node_index_to_node (nodes_config : list NodeConfig)
  : list (Z * Node) :=
  dict_comprehension nc_node_index _get_node_by_node_config nodes_config.

(** the property of [node_index_to_node] the dict of states relies on: a
    node is filed under its own index *)
Definition own_index (index : list (Z * Node)) : Prop :=
  ∀ i n, dict_lookup index i = Some n → n_node_index n = i.

(** [{node_index_to_node[ns.node_index]: ns for ns in states}], filling
    [acc]: the first state whose index is not a key raises. *)
Fixpoint states_by_node (index : list (Z * Node)) (states : list NodeState)
    (acc : list (Node * NodeState)) : result (list (Node * NodeState)) :=
  match states with
  | [] => Returned acc
  | ns :: states' =>
      match dict_lookup index (state_node_index ns) with
      | None => Raised (KeyError (state_node_index ns))
      | Some n => states_by_node index states' (dict_set n ns acc)
      end
  end.

Definition get_nodes_state (first_fails_first : bool) (client : AdminAPI)
  : result (list (Node * NodeState)) :=
  match gather2 first_fails_first
          (getNodesConfig client no_filter) (getNodesState client) with
  | Raise e => Raised (Exn e)
  | Return (nodes_config_resp, nodes_state_resp) =>
      states_by_node (node_index_to_node (nodes nodes_config_resp))
        (states nodes_state_resp) []
  end.

End ModelRest.

(** ** A concrete cluster

    Modelled from the spec: the location scopes it names (NODE, RACK, ROW,
    DATACENTER, REGION), numbered from the finest to the coarsest as its
    ordering convention asks; addresses are plain strings.  Used to run the
    functions on concrete inputs only. *)
Module Scenario.

Inductive Level := S_NODE | S_RACK | S_ROW | S_DATACENTER | S_REGION.

Global Instance Level_eq_dec : EqDecision Level.
Proof. solve_decision. Defined.

Definition Level_to_nat (l : Level) : nat :=
  match l with
  | S_NODE => 0 | S_RACK => 1 | S_ROW => 2 | S_DATACENTER => 3 | S_REGION => 4
  end%nat.

Definition Level_of_nat (n : nat) : option Level :=
  match n with
  | 0 => Some S_NODE | 1 => Some S_RACK | 2 => Some S_ROW
  | 3 => Some S_DATACENTER | 4 => Some S_REGION | _ => None
  end%nat.

Global Instance Level_countable : Countable Level.
Proof.
  refine (inj_countable Level_to_nat Level_of_nat _).
  intros []; reflexivity.
Defined.

Definition imports : Imports := {|
  LocationScope := Level;
  value := λ l, Z.of_nat (Level_to_nat l);
  LocationScope_members := [S_NODE; S_RACK; S_ROW; S_DATACENTER; S_REGION];
  NODE := S_NODE;
  ThriftSocketAddress := string;
  SocketAddress := string;
  from_thrift := λ a, a;
  NodeState := Z;
  MaintenanceDefinition := string;
|}.
#[local] Existing Instance imports.

(** the same with no more levels than the scenario of the specification
    speaks of: nodes, racks and datacenters *)
Definition three_levels : Imports := {|
  LocationScope := Level;
  value := λ l, Z.of_nat (Level_to_nat l);
  LocationScope_members := [S_NODE; S_RACK; S_DATACENTER];
  NODE := S_NODE;
  ThriftSocketAddress := string;
  SocketAddress := string;
  from_thrift := λ a, a;
  NodeState := Z;
  MaintenanceDefinition := string;
|}.

Definition mk_node (i : Z) (n rack dc : string) : NodeConfig :=
  labelled_node S_RACK S_DATACENTER i ("[::1]:" +:+ pretty (4440 + i)) n rack dc.

Definition scope_info (s : Level) : ReplicationInfo :=
  {| tolerable_failure_domains := {| domain := s; count := 1 |} |}.

Definition transport_error (what : string) : AdminAPIError :=
  OtherException "TransportError" what.

(** a client whose calls all succeed, except the maintenance one that
    comes back as [m] *)
Definition client_with (cfg : list NodeConfig)
    (m : call_result MaintenanceDefinitionResponse) : AdminAPI :=
  {| getNodesConfig := λ req,
       Response {| nodes :=
         match node req with
         | None => cfg
         | Some (ByNodeIndex i) =>
             filter (λ nc, nc_node_index nc = i) cfg
         | Some (ByName n) => filter (λ nc, nc_name nc = n) cfg
         end |};
     getNodesState := Response {| states := nc_node_index <$> cfg |};
     getMaintenances := m;
     getReplicationInfo := Response (scope_info S_RACK) |}.

(** a client whose node-config call fails and whose maintenance call comes
    back as [m] *)
Definition client_config_down
    (m : call_result MaintenanceDefinitionResponse) : AdminAPI :=
  {| getNodesConfig := λ _, ExceptionObject (transport_error "nodes config");
     getNodesState := Response {| states := [] |};
     getMaintenances := m;
     getReplicationInfo := Response (scope_info S_RACK) |}.

Definition two_nodes : list NodeConfig :=
  [mk_node 0 "A" "r1" "d1"; mk_node 1 "B" "r1" "d1"].

(** the four nodes of the scenario of the specification *)
Definition four_nodes : list NodeConfig :=
  [mk_node 0 "A" "r1" "d1"; mk_node 1 "B" "r1" "d1";
   mk_node 2 "C" "r2" "d1"; mk_node 3 "D" "r3" "d2"].

(** two nodes the control plane gave the same index *)
Definition same_index_nodes : list NodeConfig :=
  [mk_node 1 "a" "r1" "d1"; mk_node 1 "b" "r1" "d1"].

(** one node listed three times, the last time in another rack *)
Definition repeated_node : list NodeConfig :=
  [mk_node 5 "X" "r1" "d1"; mk_node 5 "X" "r1" "d1"; mk_node 5 "X" "r2" "d1"].

(** one node listed twice, and another one *)
Definition doubled_node : list NodeConfig :=
  [mk_node 5 "X" "r1" "d1"; mk_node 5 "X" "r1" "d1"; mk_node 6 "Y" "r2" "d1"].

Definition two_states : list NodeState := [0; 1].

Definition no_maintenance : MaintenanceDefinitionResponse :=
  {| resp_maintenances := [] |}.

Definition one_maintenance : MaintenanceDefinitionResponse :=
  {| resp_maintenances := ["drain N1"] |}.

(** the [CancelledError] of a cancelled call *)
Definition cancelled_call {A : Type} : call_result A :=
  BaseExceptionObject "CancelledError".

(** a client that is never called *)
Definition idle_client : AdminAPI := client_with [] (Response no_maintenance).

End Scenario.

(** the same cluster for the functions that read node states: a state is
    the index of its node *)
Module Fleet.
Import Scenario.
#[local] Existing Instance Scenario.imports.

Definition state_imports : StateImports :=
  {| state_node_index := λ ns : NodeState, ns |}.
#[local] Existing Instance state_imports.

(** three states, the last one of a node the configuration does not list *)
Definition stray_states : list NodeState := [1; 0; 9].

(** a client answering with the given node configurations and states *)
Definition client_of (cfg : list NodeConfig) (sts : list NodeState) : AdminAPI :=
  {| getNodesConfig := λ _, Response {| nodes := cfg |};
     getNodesState := Response {| states := sts |};
     getMaintenances := Response no_maintenance;
     getReplicationInfo := Response (scope_info S_RACK) |}.

(** a client whose calls all fail but the node-config one *)
Definition client_only_config (cfg : list NodeConfig) : AdminAPI :=
  {| getNodesConfig := λ _, Response {| nodes := cfg |};
     getNodesState := ExceptionObject (transport_error "nodes state");
     getMaintenances := ExceptionObject (transport_error "maintenances");
     getReplicationInfo := ExceptionObject (transport_error "replication info") |}.

End Fleet.

(** * Proofs *)

(** ** The cluster view *)
Section ClusterViewFacts.
Context `{Imports}.

(** C2. When the maintenance query comes back with NotSupported and the two
    other queries succeed, [get_cluster_view] returns a view with no
    maintenances, the node configurations and the node states being those of
    the two responses. *)
Theorem get_cluster_view_not_supported (client : AdminAPI) message cfg st :
  getNodesConfig client no_filter = Response cfg →
  getNodesState client = Response st →
  getMaintenances client = ExceptionObject (NotSupported message) →
  get_cluster_view client =
    Return {| nodes_config := nodes cfg;
              nodes_state := states st;
              maintenances := [] |}.
Proof.
  intros Hcfg Hst Hm. unfold get_cluster_view.
  rewrite Hm, Hcfg, Hst. reflexivity.
Qed.


(** The maintenance result is looked at first: a hard failure there is what
    the caller sees. *)
Lemma get_cluster_view_maintenance_first (client : AdminAPI) e :
  getMaintenances client = ExceptionObject e →
  (∀ message, e ≠ NotSupported message) →
  get_cluster_view client = Raise (AdminError e).
Proof.
  intros Hm Hhard. unfold get_cluster_view. rewrite Hm.
  destruct e as [message|cls message]; [by destruct (Hhard message)|done].
Qed.




(** C10. A hard failure of the maintenance query is what [get_cluster_view]
    raises when the node-config or the node-state query failed as well: the
    maintenance result is inspected before the two others. *)
Theorem get_cluster_view_maintenance_error_wins (client : AdminAPI) e :
  getMaintenances client = ExceptionObject e →
  (∀ message, e ≠ NotSupported message) →
  failed (getNodesConfig client no_filter) ∨ failed (getNodesState client) →
  get_cluster_view client = Raise (AdminError e).
Proof.
  intros Hm Hhard _. by apply get_cluster_view_maintenance_first.
Qed.

End ClusterViewFacts.

Section ClusterViewRuns.
#[local] Existing Instance Scenario.imports.
Import Scenario.

Local Abbreviation unsupported :=
  (client_with two_nodes (ExceptionObject (NotSupported "no maintenance manager"))).
Local Abbreviation both_down :=
  (client_config_down (ExceptionObject (transport_error "maintenances"))).
Local Abbreviation config_down := (client_config_down (Response one_maintenance)).
Local Abbreviation config_down_cancelled := (client_config_down cancelled_call).

Lemma get_cluster_view_not_supported_witness :
  getNodesConfig unsupported no_filter = Response {| nodes := two_nodes |}
  ∧ getNodesState unsupported = Response {| states := two_states |}
  ∧ getMaintenances unsupported
    = ExceptionObject (NotSupported "no maintenance manager")
  ∧ get_cluster_view unsupported =
      Return {| nodes_config := two_nodes; nodes_state := two_states;
                maintenances := [] |}.
Proof.
  split_and!; [reflexivity..|].
  apply (get_cluster_view_not_supported unsupported "no maintenance manager"
           {| nodes := two_nodes |} {| states := two_states |}); reflexivity.
Defined.



Lemma get_cluster_view_maintenance_error_wins_witness :
  getMaintenances both_down = ExceptionObject (transport_error "maintenances")
  ∧ (∀ message, transport_error "maintenances" ≠ NotSupported message)
  ∧ (failed (getNodesConfig both_down no_filter)
     ∨ failed (getNodesState both_down))
  ∧ get_cluster_view both_down
    = Raise (AdminError (transport_error "maintenances")).
Proof.
  assert (∀ message, transport_error "maintenances" ≠ NotSupported message)
    as Hhard by (intros ? [=]).
  assert (failed (getNodesConfig both_down no_filter)
          ∨ failed (getNodesState both_down))
    as Hfail by (left; eexists; reflexivity).
  split_and!; [reflexivity|exact Hhard|exact Hfail|].
  exact (get_cluster_view_maintenance_error_wins both_down _ eq_refl Hhard Hfail).
Defined.

End ClusterViewRuns.

(** ** Node lookup *)
Section LookupFacts.
Context `{Imports}.

Lemma lookup_cases (client : AdminAPI) (req : NodesFilter) (message : string) :
  let result :=
    resp ← await (getNodesConfig client req);
    match nodes resp with
    | [] => Raise (NodeNotFoundError message)
    | nc :: _ => Return (_get_node_by_node_config nc)
    end in
  ((∃ m, result = Raise (NodeNotFoundError m)) ↔
     ∃ resp, getNodesConfig client req = Response resp ∧ nodes resp = [])
  ∧ (∀ resp nc rest,
       getNodesConfig client req = Response resp → nodes resp = nc :: rest →
       result = Return (_get_node_by_node_config nc))
  ∧ (∀ e, getNodesConfig client req = ExceptionObject e →
       result = Raise (AdminError e)).
Proof.
  intros result. subst result.
  destruct (getNodesConfig client req) as [resp|e|cls] eqn:Hreq; simpl.
  - destruct (nodes resp) as [|nc rest] eqn:Hnodes.
    + split_and!; [|by intros ??? [= <-]; rewrite Hnodes|done].
      split; [by exists resp|by exists message].
    + split_and!; [|by intros ??? [= <-]; rewrite Hnodes; intros [= <- <-]|done].
      split; [by intros [m ?]|]. intros (resp' & [= <-] & Hnil). congruence.
  - split_and!; [|done|by intros ? [= <-]].
    split; [by intros [m ?]|by intros (resp & ? & _)].
  - split_and!; [|done|done].
    split; [by intros [m ?]|by intros (resp & ? & _)].
Qed.

(** C8. Each of the two lookups raises NodeNotFoundError exactly when the
    filtered node-config query returns an empty list of nodes; when the list
    is not empty the lookup returns the node built from its first record:
    the node that has the index and the name of the record and the data
    address of the record converted by [SocketAddress.from_thrift]. *)
Theorem lookups_not_found_iff_empty (client : AdminAPI) :
  (∀ node_index,
     ((∃ m, get_node_by_node_index client node_index = Raise (NodeNotFoundError m))
        ↔ ∃ resp, getNodesConfig client (filter_by_node_index node_index)
                    = Response resp ∧ nodes resp = [])
     ∧ (∀ resp nc rest,
          getNodesConfig client (filter_by_node_index node_index) = Response resp →
          nodes resp = nc :: rest →
          get_node_by_node_index client node_index
            = Return {| n_node_index := nc_node_index nc;
                        n_data_addr := from_thrift (nc_data_address nc);
                        n_name := nc_name nc |}))
  ∧ (∀ name,
     ((∃ m, get_node_by_name client name = Raise (NodeNotFoundError m))
        ↔ ∃ resp, getNodesConfig client (filter_by_name name)
                    = Response resp ∧ nodes resp = [])
     ∧ (∀ resp nc rest,
          getNodesConfig client (filter_by_name name) = Response resp →
          nodes resp = nc :: rest →
          get_node_by_name client name
            = Return {| n_node_index := nc_node_index nc;
                        n_data_addr := from_thrift (nc_data_address nc);
                        n_name := nc_name nc |})).
Proof.
  split.
  - intros i.
    destruct (lookup_cases client (filter_by_node_index i)
      ("Node not found: node_index=`" +:+ pretty i +:+ "'")) as (Hiff & Hsome & _).
    by split.
  - intros n.
    destruct (lookup_cases client (filter_by_name n)
      ("Node not found: name=`" +:+ n +:+ "'")) as (Hiff & Hsome & _).
    by split.
Qed.

End LookupFacts.

Section LookupRuns.
#[local] Existing Instance Scenario.imports.
Import Scenario.

Local Abbreviation healthy := (client_with two_nodes (Response no_maintenance)).

Lemma lookups_not_found_iff_empty_witness :
  (∃ m, get_node_by_name healthy "C" = Raise (NodeNotFoundError m))
  ∧ get_node_by_node_index healthy 1
    = Return {| n_node_index := 1; n_data_addr := "[::1]:4441"; n_name := "B" |}
  ∧ get_node_by_name healthy "A"
    = Return {| n_node_index := 0; n_data_addr := "[::1]:4440"; n_name := "A" |}.
Proof.
  destruct (lookups_not_found_iff_empty (H:=imports) healthy) as [Hindex Hname].
  split_and!.
  - apply (Hname "C"). by eexists.
  - exact (proj2 (Hindex 1) {| nodes := [mk_node 1 "B" "r1" "d1"] |}
             (mk_node 1 "B" "r1" "d1") [] eq_refl eq_refl).
  - exact (proj2 (Hname "A") {| nodes := [mk_node 0 "A" "r1" "d1"] |}
             (mk_node 0 "A" "r1" "d1") [] eq_refl eq_refl).
Defined.

Example get_node_by_node_index_found :
  get_node_by_node_index (client_with two_nodes (Response no_maintenance)) 1
  = Return {| n_node_index := 1; n_data_addr := "[::1]:4441"; n_name := "B" |}.
Proof. vm_compute. reflexivity. Qed.

Example get_node_by_name_missing :
  get_node_by_name (client_with two_nodes (Response no_maintenance)) "C"
  = Raise (NodeNotFoundError "Node not found: name=`C'").
Proof. vm_compute. reflexivity. Qed.

Example get_node_by_node_index_missing :
  get_node_by_node_index (client_with two_nodes (Response no_maintenance)) 7
  = Raise (NodeNotFoundError "Node not found: node_index=`7'").
Proof. vm_compute. reflexivity. Qed.

End LookupRuns.

(** ** The stable sort *)
Section SortedFacts.
Context {A : Type} (key : A → Z) (reverse : bool).
Implicit Types (x y : A) (l : list A).

Local Abbreviation R := (in_order key reverse).

Lemma in_order_spec x y :
  R x y ↔ if reverse then key y ≤ key x else key x ≤ key y.
Proof. unfold in_order, may_precede. destruct reverse; lia. Qed.

Global Instance in_order_trans : Transitive R.
Proof. intros x y z. rewrite !in_order_spec. destruct reverse; lia. Qed.

Lemma in_order_total x y : R x y ∨ R y x.
Proof. rewrite !in_order_spec. destruct reverse; lia. Qed.

Lemma not_may_precede x y :
  may_precede reverse (key x) (key y) = false → R y x.
Proof.
  intros Hno. destruct (in_order_total x y) as [Hxy|]; [|done].
  unfold in_order in Hxy. congruence.
Qed.

Lemma insert_by_perm x l : insert_by key reverse x l ≡ₚ x :: l.
Proof.
  induction l as [|y l IH]; simpl; [done|].
  destruct (may_precede _ _ _); [done|]. rewrite IH. apply Permutation_swap.
Qed.

Lemma sorted_perm l : sorted key reverse l ≡ₚ l.
Proof.
  induction l as [|x l IH]; simpl; [done|].
  by rewrite insert_by_perm, IH.
Qed.

Lemma insert_by_before_all x l :
  Forall (R x) l → insert_by key reverse x l = x :: l.
Proof.
  destruct l as [|y l]; simpl; [done|].
  intros [Hxy _]%Forall_cons. unfold in_order in Hxy. by rewrite Hxy.
Qed.

Lemma insert_by_sorted x l :
  StronglySorted R l → StronglySorted R (insert_by key reverse x l).
Proof.
  induction 1 as [|y l Hl IH Hy]; simpl.
  { repeat constructor. }
  destruct (may_precede _ _ _) eqn:Hxy.
  - constructor; [by constructor|]. constructor; [done|].
    eapply Forall_impl; [exact Hy|]. intros z Hyz. by trans y.
  - constructor; [done|]. rewrite insert_by_perm.
    constructor; [by apply not_may_precede|done].
Qed.

Lemma sorted_sorted l : StronglySorted R (sorted key reverse l).
Proof.
  induction l as [|x l IH]; simpl; [constructor|by apply insert_by_sorted].
Qed.

(** a list already in order is left as it is *)
Lemma sorted_id l : StronglySorted R l → sorted key reverse l = l.
Proof.
  induction 1 as [|x l Hl IH Hx]; simpl; [done|].
  rewrite IH. by apply insert_by_before_all.
Qed.

(** with pairwise distinct keys the result depends on the elements only,
    not on the order they come in *)
Lemma sorted_unique l1 l2 :
  l1 ≡ₚ l2 →
  (∀ x y, x ∈ l1 → y ∈ l1 → key x = key y → x = y) →
  sorted key reverse l1 = sorted key reverse l2.
Proof.
  intros Hperm Hinj.
  apply (StronglySorted_unique_strong R); [|apply sorted_sorted..|].
  - intros x y Hx Hy Hxy Hyx.
    rewrite sorted_perm in Hx. rewrite sorted_perm, <- Hperm in Hy.
    apply Hinj; [done..|].
    apply in_order_spec in Hxy, Hyx. destruct reverse; lia.
  - by rewrite !sorted_perm.
Qed.

Lemma filter_insert_by (P : A → Prop) `{!∀ x, Decision (P x)} x l :
  StronglySorted R l →
  filter P (insert_by key reverse x l)
  = if decide (P x) then insert_by key reverse x (filter P l) else filter P l.
Proof.
  induction 1 as [|y l Hl IH Hy]; simpl.
  { rewrite filter_cons. by destruct (decide (P x)). }
  destruct (may_precede _ _ _) eqn:Hxy.
  - rewrite (filter_cons _ x). destruct (decide (P x)); [|done].
    symmetry. apply insert_by_before_all.
    apply Forall_forall. intros z [_ Hz]%list_elem_of_filter.
    apply elem_of_cons in Hz as [->|Hz]; [done|].
    trans y; [done|]. by eapply Forall_forall in Hy.
  - rewrite (filter_cons _ y), IH, (filter_cons _ y).
    destruct (decide (P y)), (decide (P x)); simpl; by rewrite ?Hxy.
Qed.

(** filtering after sorting is sorting after filtering *)
Lemma sorted_filter (P : A → Prop) `{!∀ x, Decision (P x)} l :
  filter P (sorted key reverse l) = sorted key reverse (filter P l).
Proof.
  induction l as [|x l IH]; simpl; [done|].
  rewrite filter_insert_by by apply sorted_sorted.
  rewrite filter_cons, IH. by destruct (decide (P x)).
Qed.

End SortedFacts.

Lemma sorted_fmap {A B : Type} (key : A → Z) (reverse : bool) (f : B → A)
    (l : list B) :
  sorted key reverse (f <$> l) = f <$> sorted (key ∘ f) reverse l.
Proof.
  induction l as [|x l IH]; [done|].
  change (insert_by key reverse (f x) (sorted key reverse (f <$> l))
          = f <$> insert_by (key ∘ f) reverse x (sorted (key ∘ f) reverse l)).
  rewrite IH. generalize (sorted (key ∘ f) reverse l). intros k.
  induction k as [|y k IHk]; [done|].
  change (insert_by key reverse (f x) (f y :: (f <$> k))
          = f <$> insert_by (key ∘ f) reverse x (y :: k)).
  cbn [insert_by]. unfold compose at 1 2.
  destruct (may_precede _ _ _); [done|].
  rewrite IHk. reflexivity.
Qed.

(** ** The location key *)
Section LocationFacts.
Context `{Imports}.

Lemma key_levels_sorted_filter (scope : LocationScope) :
  key_levels scope
  = sorted value true
      (filter (λ level, value level >= value scope) LocationScope_members).
Proof.
  unfold key_levels. rewrite sorted_filter. f_equal.
  apply list_filter_iff. intros level. lia.
Qed.

Lemma elem_of_key_levels (scope level : LocationScope) :
  level ∈ key_levels scope
  ↔ level ∈ LocationScope_members ∧ value scope ≤ value level.
Proof.
  unfold key_levels. rewrite list_elem_of_filter, sorted_perm. tauto.
Qed.

(** C4. Under any scope other than NODE the key of a node is the tuple the
    specification describes: the levels of the enum whose value is at least
    the one of the scope, ordered by decreasing value, each replaced by the
    label the node has for it, or by the empty string when it has none. *)
Theorem location_coarser_levels (scope : LocationScope) (node_config : NodeConfig) :
  scope ≠ NODE →
  location scope node_config = KTuple (location_key_spec scope node_config)
  ∧ ∃ levels,
      location scope node_config = KTuple (label node_config <$> levels)
      ∧ levels ≡ₚ filter (λ level, value level >= value scope)
                    LocationScope_members
      ∧ StronglySorted (λ a b, value b ≤ value a) levels.
Proof.
  intros Hscope. unfold location. rewrite decide_True by done.
  rewrite key_levels_sorted_filter. split.
  - reflexivity.
  - eexists. split; [done|]. split; [apply sorted_perm|].
    generalize (sorted_sorted value true
      (filter (λ level, value level >= value scope) LocationScope_members)).
    induction 1 as [|a l Hl IH Ha]; constructor; [done|].
    eapply Forall_impl; [exact Ha|]. intros b Hab%in_order_spec. simpl in Hab. lia.
Qed.

End LocationFacts.

Section LocationRuns.
#[local] Existing Instance Scenario.imports.
Import Scenario.

Lemma location_coarser_levels_witness :
  S_RACK ≠ NODE
  ∧ location S_RACK (mk_node 0 "A" "r1" "d1") = KTuple [""; "d1"; ""; "r1"]
  ∧ location_key_spec S_RACK (mk_node 0 "A" "r1" "d1") = [""; "d1"; ""; "r1"].
Proof.
  assert (S_RACK ≠ NODE) as Hscope by (intros [=]).
  split; [exact Hscope|].
  destruct (location_coarser_levels (H:=imports) S_RACK (mk_node 0 "A" "r1" "d1") Hscope)
    as [-> _].
  split; [f_equal|]; vm_compute; reflexivity.
Defined.

End LocationRuns.

(** ** The accumulating dict *)
Section DictFacts.
Context {K A : Type} `{EqDecision K, EqDecision A}.
Implicit Types (d : list (K * list A)) (k q : K) (x y : A) (s : list A).

Lemma elem_of_set_add y x s : y ∈ set_add x s ↔ y = x ∨ y ∈ s.
Proof.
  unfold set_add. destruct (decide (x ∈ s)).
  - split; [auto|]. by intros [->|].
  - rewrite elem_of_app, list_elem_of_singleton. tauto.
Qed.

Lemma set_add_perm x s : x ∉ s → set_add x s ≡ₚ x :: s.
Proof.
  intros Hx. unfold set_add. rewrite decide_False by done.
  by rewrite (comm (++)).
Qed.

Lemma set_add_NoDup x s : NoDup s → NoDup (set_add x s).
Proof.
  intros Hs. unfold set_add. destruct (decide (x ∈ s)); [done|].
  apply NoDup_app. split_and!; [done| |apply NoDup_singleton].
  intros y Hy ->%list_elem_of_singleton. done.
Qed.

Lemma set_add_nonempty x s : set_add x s ≠ [].
Proof.
  unfold set_add. destruct (decide (x ∈ s)) as [Hx|].
  - intros ->. by apply not_elem_of_nil in Hx.
  - by destruct s.
Qed.

Lemma set_add_length x s :
  length (set_add x s) = (length s + if decide (x ∈ s) then 0 else 1)%nat.
Proof.
  unfold set_add. destruct (decide (x ∈ s)); [lia|].
  rewrite length_app. simpl. lia.
Qed.

Lemma dict_get_add k x d q :
  dict_get (dict_add k x d) q
  = if decide (q = k) then set_add x (dict_get d k) else dict_get d q.
Proof.
  induction d as [|[k' s] d IH]; simpl.
  - by destruct (decide (q = k)).
  - destruct (decide (k = k')) as [->|Hk]; simpl.
    + by destruct (decide (q = k')).
    + rewrite IH.
      destruct (decide (q = k')), (decide (q = k)); congruence.
Qed.

Lemma dict_add_keys k x d :
  (dict_add k x d).*1 = if decide (k ∈ d.*1) then d.*1 else d.*1 ++ [k].
Proof.
  induction d as [|[k' s] d IH].
  - by rewrite decide_False by apply not_elem_of_nil.
  - cbn [dict_add]. destruct (decide (k = k')) as [->|Hk].
    + by rewrite decide_True by apply list_elem_of_here.
    + rewrite !fmap_cons, IH. cbn [fst]. destruct (decide (k ∈ d.*1)) as [Hin|Hin].
      * by rewrite decide_True by by apply list_elem_of_further.
      * rewrite decide_False; [done|]. rewrite elem_of_cons. tauto.
Qed.

Lemma dict_add_fresh k x d : k ∉ d.*1 → dict_add k x d = d ++ [(k, [x])].
Proof.
  induction d as [|[k' s] d IH]; simpl; [done|].
  rewrite not_elem_of_cons. intros [Hk Hd].
  rewrite decide_False by done. by rewrite IH.
Qed.

Lemma dict_add_keys_NoDup k x d : NoDup d.*1 → NoDup (dict_add k x d).*1.
Proof.
  intros Hd. rewrite dict_add_keys. destruct (decide (k ∈ d.*1)); [done|].
  apply NoDup_app. split_and!; [done| |apply NoDup_singleton].
  intros q Hq ->%list_elem_of_singleton. done.
Qed.

Lemma dict_add_nonempty k x d :
  Forall (λ kv, kv.2 ≠ []) d → Forall (λ kv, kv.2 ≠ []) (dict_add k x d).
Proof.
  induction 1 as [|[k' s] d Hs Hd IH]; simpl.
  - repeat constructor. apply set_add_nonempty.
  - destruct (decide (k = k')); constructor; simpl; auto using set_add_nonempty.
Qed.

(** adding a new member: the members of the dict gain exactly that one *)
Lemma dict_add_members k x d :
  x ∉ concat d.*2 → concat (dict_add k x d).*2 ≡ₚ x :: concat d.*2.
Proof.
  induction d as [|[k' s] d IH]; csimpl; [done|].
  rewrite elem_of_app. intros Hx.
  destruct (decide (k = k')); csimpl.
  - rewrite set_add_perm by tauto. done.
  - rewrite IH by tauto. by rewrite Permutation_middle.
Qed.

(** adding to the set of its key a member that set has: nothing changes in
    the number of members; otherwise there is one more *)
Lemma dict_add_length k x d :
  length (concat (dict_add k x d).*2)
  = (length (concat d.*2) + if decide (x ∈ dict_get d k) then 0 else 1)%nat.
Proof.
  induction d as [|[k' s] d IH]; csimpl.
  - done.
  - destruct (decide (k = k')); csimpl; rewrite !length_app.
    + rewrite set_add_length. lia.
    + rewrite IH. lia.
Qed.

Lemma dict_get_nonempty k d :
  Forall (λ kv, kv.2 ≠ []) d → k ∈ d.*1 → dict_get d k ≠ [].
Proof.
  induction 1 as [|[k' s] d Hs Hd IH]; csimpl.
  - by intros ?%not_elem_of_nil.
  - rewrite elem_of_cons. destruct (decide (k = k')); [done|]. intros [|]; auto.
Qed.

(** a dict is the list of its keys, each with the set bound to it *)
Lemma dict_values {B : Type} (f : list A → B) d :
  NoDup d.*1 → (λ kv, f kv.2) <$> d = (λ k, f (dict_get d k)) <$> d.*1.
Proof.
  induction d as [|[k s] d IH]; csimpl; [done|].
  rewrite NoDup_cons. intros [Hk Hd].
  rewrite decide_True by done. f_equal. rewrite IH by done.
  apply Forall_fmap_ext_1, Forall_forall. intros q Hq.
  rewrite decide_False; [done|]. by intros ->.
Qed.

End DictFacts.

(** ** The loop of [group_nodes_by_scope] *)
Section AccumulateFacts.
Context `{Imports} (scope : LocationScope).
Implicit Types (d : list (LocationKey * list NodeID)) (k : LocationKey).
Implicit Types (ncs : list NodeConfig) (nc : NodeConfig) (x : NodeID).

Local Abbreviation step :=
  (λ ret node_config,
     dict_add (location scope node_config) (node_id node_config) ret).

(** what holds of the dict before the loop and is kept by every round holds
    after it *)
Lemma loop_invariant (P : list (LocationKey * list NodeID) → Prop) d ncs :
  P d → (∀ d' nc, P d' → P (step d' nc)) → P (foldl step d ncs).
Proof. revert d. induction ncs; simpl; auto. Qed.

Lemma loop_get d ncs k x :
  x ∈ dict_get (foldl step d ncs) k
  ↔ x ∈ dict_get d k
    ∨ ∃ nc, nc ∈ ncs ∧ location scope nc = k ∧ node_id nc = x.
Proof.
  revert d. induction ncs as [|nc ncs IH]; intros d; simpl.
  - split; [auto|]. intros [|(nc & []%not_elem_of_nil & _)]. done.
  - rewrite IH, dict_get_add. setoid_rewrite elem_of_cons.
    destruct (decide (k = location scope nc)) as [->|Hk].
    + rewrite elem_of_set_add. naive_solver.
    + naive_solver.
Qed.

Lemma loop_keys d ncs k :
  k ∈ (foldl step d ncs).*1
  ↔ k ∈ d.*1 ∨ ∃ nc, nc ∈ ncs ∧ location scope nc = k.
Proof.
  revert d. induction ncs as [|nc ncs IH]; intros d; simpl.
  - split; [auto|]. intros [|(nc & []%not_elem_of_nil & _)]. done.
  - rewrite IH, dict_add_keys. setoid_rewrite elem_of_cons.
    destruct (decide (location scope nc ∈ d.*1)).
    + naive_solver.
    + rewrite elem_of_app, list_elem_of_singleton. naive_solver.
Qed.

Lemma loop_members d ncs :
  NoDup (concat d.*2 ++ (node_id <$> ncs)) →
  concat (foldl step d ncs).*2 ≡ₚ concat d.*2 ++ (node_id <$> ncs).
Proof.
  revert d. induction ncs as [|nc ncs IH]; intros d; csimpl.
  - by rewrite (right_id [] (++)).
  - intros Hnd. rewrite <- Permutation_middle in Hnd.
    apply NoDup_cons in Hnd as [Hnew Hnd].
    rewrite elem_of_app in Hnew.
    assert (concat (step d nc).*2 ≡ₚ node_id nc :: concat d.*2) as Hstep
      by (apply dict_add_members; tauto).
    rewrite IH.
    + by rewrite Hstep, <- Permutation_middle.
    + rewrite Hstep. simpl. apply NoDup_cons. by rewrite elem_of_app.
Qed.

Lemma loop_length d ncs :
  (length (concat (foldl step d ncs).*2) ≤ length (concat d.*2) + length ncs)%nat.
Proof.
  revert d. induction ncs as [|nc ncs IH]; intros d; simpl; [lia|].
  etrans; [apply IH|]. rewrite dict_add_length. case_decide; lia.
Qed.

Lemma accumulate_keys_NoDup ncs : NoDup (accumulate scope ncs).*1.
Proof.
  unfold accumulate. apply (loop_invariant (λ d, NoDup d.*1)); [constructor|].
  intros d' nc. apply dict_add_keys_NoDup.
Qed.

Lemma accumulate_nonempty ncs : Forall (λ kv, kv.2 ≠ []) (accumulate scope ncs).
Proof.
  unfold accumulate.
  apply (loop_invariant (Forall (λ kv, kv.2 ≠ []))); [constructor|].
  intros d' nc. apply dict_add_nonempty.
Qed.

Lemma accumulate_get_NoDup ncs k : NoDup (dict_get (accumulate scope ncs) k).
Proof.
  revert k. unfold accumulate.
  apply (loop_invariant (λ d, ∀ k, NoDup (dict_get d k))); [constructor|].
  intros d' nc Hd' k. rewrite dict_get_add.
  case_decide; [by apply set_add_NoDup|done].
Qed.

(** the set bound to a key holds the identities of the nodes of that key *)
Lemma accumulate_get ncs k x :
  x ∈ dict_get (accumulate scope ncs) k
  ↔ ∃ nc, nc ∈ ncs ∧ location scope nc = k ∧ node_id nc = x.
Proof.
  unfold accumulate. rewrite loop_get. simpl.
  split; [|auto]. intros [[]%not_elem_of_nil|]. done.
Qed.

(** the keys of the dict are the keys of the nodes *)
Lemma accumulate_keys ncs k :
  k ∈ (accumulate scope ncs).*1 ↔ ∃ nc, nc ∈ ncs ∧ location scope nc = k.
Proof.
  unfold accumulate. rewrite loop_keys. simpl.
  split; [|auto]. intros [[]%not_elem_of_nil|]. done.
Qed.

Lemma accumulate_members ncs :
  NoDup (node_id <$> ncs) →
  concat (accumulate scope ncs).*2 ≡ₚ node_id <$> ncs.
Proof. intros Hnd. unfold accumulate. by rewrite loop_members. Qed.

End AccumulateFacts.

(** ** Lists of lists *)
Section ConcatFacts.
Context {A : Type}.
Implicit Types (L : list (list A)) (g : list A) (x : A).

Lemma elem_of_concat x L : x ∈ concat L ↔ ∃ g, g ∈ L ∧ x ∈ g.
Proof.
  induction L as [|g' L IH]; simpl.
  - split; [by intros ?%not_elem_of_nil|]. by intros (g & ?%not_elem_of_nil & _).
  - rewrite elem_of_app, IH. setoid_rewrite elem_of_cons. naive_solver.
Qed.

Lemma concat_perm L1 L2 : L1 ≡ₚ L2 → concat L1 ≡ₚ concat L2.
Proof.
  induction 1 as [|g L1 L2 _ IH|g1 g2 L|L1 L2 L3 _ IH1 _ IH2]; simpl.
  - done.
  - by rewrite IH.
  - rewrite !(assoc (++)). by rewrite (comm (++) g1 g2).
  - by trans (concat L2).
Qed.

Lemma concat_fmap_perm {B : Type} (f : B → list A) (proj : B → list A)
    (l : list B) :
  (∀ b, f b ≡ₚ proj b) → concat (f <$> l) ≡ₚ concat (proj <$> l).
Proof.
  intros Hf. induction l as [|b l IH]; csimpl; [done|]. by rewrite Hf, IH.
Qed.

(** in a list of lists without a repeated member, two lists at different
    places share no member *)
Lemma NoDup_concat_disjoint L (i j : nat) g1 g2 x :
  NoDup (concat L) → L !! i = Some g1 → L !! j = Some g2 → i ≠ j →
  x ∈ g1 → x ∉ g2.
Proof.
  revert i j. induction L as [|g L IH]; intros i j; [done|]. simpl.
  rewrite NoDup_app. intros (_ & Hsep & HL) Hi Hj Hij Hx1 Hx2.
  destruct i as [|i], j as [|j]; simplify_eq/=.
  - apply (Hsep x); [done|]. apply elem_of_concat. exists g2.
    split; [|done]. by eapply list_elem_of_lookup_2.
  - apply (Hsep x); [done|]. apply elem_of_concat. exists g1.
    split; [|done]. by eapply list_elem_of_lookup_2.
  - eapply (IH i j); eauto.
Qed.

Lemma NoDup_fmap_eq {B : Type} (f : A → B) (l : list A) x y :
  NoDup (f <$> l) → x ∈ l → y ∈ l → f x = f y → x = y.
Proof.
  induction l as [|z l IH]; csimpl; [by intros _ ?%not_elem_of_nil|].
  rewrite NoDup_cons, !elem_of_cons. intros [Hz Hl] [->|Hx] [->|Hy] Hf; auto.
  - destruct Hz. rewrite Hf. by apply list_elem_of_fmap_2.
  - destruct Hz. rewrite <- Hf. by apply list_elem_of_fmap_2.
Qed.

Lemma StronglySorted_weaken (R1 R2 : relation A) (l : list A) :
  (∀ x y, R1 x y → R2 x y) → StronglySorted R1 l → StronglySorted R2 l.
Proof.
  intros HR. induction 1 as [|x l Hl IH Hx]; constructor; [done|].
  eapply Forall_impl; [exact Hx|]. auto.
Qed.

End ConcatFacts.

(** ** The groups returned *)
Section GroupingFacts.
Context `{Imports}.
Implicit Types (h : HashOrder NodeID) (client : AdminAPI).
Implicit Types (ncs : list NodeConfig) (ri : ReplicationInfo).
Implicit Types (d : list (LocationKey * list NodeID)) (x : list NodeID).

Lemma group_key_head x n : head x = Some n → group_key x = node_index n.
Proof. unfold group_key, first_node_index. by intros ->. Qed.

Lemma head_nonempty x : x ≠ [] → ∃ n, head x = Some n ∧ n ∈ x.
Proof. destruct x as [|n x]; [done|]. exists n. split; [done|]. left. Qed.

(** no group is empty, so that taking the first member of each never fails *)
Lemma sorted_groups_returns (groups : list (list NodeID)) :
  Forall (λ x, x ≠ []) groups →
  sorted_groups groups = Return (sorted group_key false groups).
Proof.
  intros Hne. unfold sorted_groups.
  destruct (forallb _ groups) eqn:Hall; [done|].
  apply not_true_iff_false in Hall. destruct Hall.
  apply forallb_forall. intros x Hx%list_elem_of_In.
  apply bool_decide_eq_true. eapply Forall_forall in Hne; [|done].
  destruct (head_nonempty x Hne) as (n & Hn & _).
  unfold first_node_index. rewrite Hn. by eexists.
Qed.

Lemma tuples_nonempty h d :
  Forall (λ kv, kv.2 ≠ []) d → Forall (λ x, x ≠ []) (tuples h d).
Proof.
  intros Hd. unfold tuples. apply Forall_fmap. eapply Forall_impl; [exact Hd|].
  intros [k s] Hs Hnil; simpl in *. apply Hs.
  apply Permutation_nil_r. by rewrite <- Hnil, sorted_perm, set_iter_perm.
Qed.

(** With the node configurations and the replication info at hand the
    function performs no call and returns. *)
Lemma group_nodes_by_scope_returns h client ncs ri :
  group_nodes_by_scope h client (Some ncs) (Some ri)
  = Return (sorted group_key false
      (tuples h (accumulate (domain (tolerable_failure_domains ri)) ncs))).
Proof.
  unfold group_nodes_by_scope, emit. simpl.
  apply sorted_groups_returns, tuples_nonempty, accumulate_nonempty.
Qed.

Lemma concat_tuples h d : concat (tuples h d) ≡ₚ concat d.*2.
Proof.
  unfold tuples. apply concat_fmap_perm. intros [k s]. simpl.
  by rewrite sorted_perm, set_iter_perm.
Qed.

Lemma node_id_NoDup ncs :
  NoDup (nc_node_index <$> ncs) → NoDup (node_id <$> ncs).
Proof.
  intros Hnd. apply NoDup_fmap_2_strong; [|by eapply NoDup_fmap_1].
  intros nc1 nc2 Hnc1 Hnc2 Hid. apply (NoDup_fmap_eq nc_node_index ncs); [done..|].
  by apply (f_equal node_index) in Hid.
Qed.

(** C1. With pairwise distinct node indices the groups returned partition
    the input: their members taken together are the identities of the input
    nodes, each exactly once, two different groups share no member, and
    every input node is in one group and no other. *)
Theorem group_nodes_by_scope_partition h client ncs ri :
  NoDup (nc_node_index <$> ncs) →
  ∃ out, group_nodes_by_scope h client (Some ncs) (Some ri) = Return out
    ∧ concat out ≡ₚ node_id <$> ncs
    ∧ (∀ n, n ∈ concat out ↔ n ∈ node_id <$> ncs)
    ∧ NoDup (concat out)
    ∧ (∀ (i j : nat) g1 g2, out !! i = Some g1 → out !! j = Some g2 → i ≠ j →
         ∀ n, n ∈ g1 → n ∉ g2)
    ∧ (∀ nc, nc ∈ ncs →
         ∃ (i : nat) g, out !! i = Some g ∧ node_id nc ∈ g
           ∧ ∀ (j : nat) g', out !! j = Some g' → node_id nc ∈ g' → j = i).
Proof.
  intros Hidx. eexists. split; [apply group_nodes_by_scope_returns|].
  set (out := sorted _ _ _).
  assert (concat out ≡ₚ node_id <$> ncs) as Hperm.
  { unfold out. rewrite (concat_perm _ _ (sorted_perm _ _ _)), concat_tuples.
    by apply accumulate_members, node_id_NoDup. }
  assert (NoDup (concat out)) as Hnd by (rewrite Hperm; by apply node_id_NoDup).
  split_and!; [done|by intros n; rewrite Hperm|done| |].
  - intros i j g1 g2 Hi Hj Hij n. by eapply NoDup_concat_disjoint.
  - intros nc Hnc.
    assert (node_id nc ∈ concat out) as (g & Hg & Hin)%elem_of_concat
      by (rewrite Hperm; by apply list_elem_of_fmap_2).
    apply list_elem_of_lookup in Hg as [i Hi]. exists i, g. split_and!; [done..|].
    intros j g' Hj Hin'. destruct (decide (j = i)) as [|Hne]; [done|].
    by destruct (NoDup_concat_disjoint out j i g' g (node_id nc)).
Qed.

(** *** Independence of the order of accumulation *)

Lemma tuples_keys h d :
  NoDup d.*1 →
  tuples h d
  = (λ k, sorted node_index false (set_iter h (dict_get d k))) <$> d.*1.
Proof.
  intros Hd. unfold tuples.
  by rewrite (dict_values (λ s, sorted node_index false (set_iter h s))).
Qed.

Lemma accumulate_keys_perm scope ncs ncs' :
  ncs ≡ₚ ncs' → (accumulate scope ncs).*1 ≡ₚ (accumulate scope ncs').*1.
Proof.
  intros Hperm. apply NoDup_Permutation; [apply accumulate_keys_NoDup..|].
  intros k. rewrite !accumulate_keys. by setoid_rewrite Hperm.
Qed.

Lemma accumulate_get_perm scope ncs ncs' k :
  ncs ≡ₚ ncs' →
  dict_get (accumulate scope ncs) k ≡ₚ dict_get (accumulate scope ncs') k.
Proof.
  intros Hperm. apply NoDup_Permutation; [apply accumulate_get_NoDup..|].
  intros n. rewrite !accumulate_get. by setoid_rewrite Hperm.
Qed.

(** with distinct node indices a node index is found in one group only,
    once *)
Lemma accumulate_index_inj scope ncs k1 k2 n1 n2 :
  NoDup (nc_node_index <$> ncs) →
  n1 ∈ dict_get (accumulate scope ncs) k1 →
  n2 ∈ dict_get (accumulate scope ncs) k2 →
  node_index n1 = node_index n2 → n1 = n2 ∧ k1 = k2.
Proof.
  intros Hidx (nc1 & Hnc1 & <- & <-)%accumulate_get
    (nc2 & Hnc2 & <- & <-)%accumulate_get Heq.
  by rewrite (NoDup_fmap_eq nc_node_index ncs nc1 nc2).
Qed.

Lemma tuple_first scope h ncs k :
  k ∈ (accumulate scope ncs).*1 →
  ∃ n, head (sorted node_index false
               (set_iter h (dict_get (accumulate scope ncs) k))) = Some n
       ∧ n ∈ dict_get (accumulate scope ncs) k.
Proof.
  intros Hk. set (x := sorted _ _ _).
  assert (x ≡ₚ dict_get (accumulate scope ncs) k) as Hperm
    by (unfold x; by rewrite sorted_perm, set_iter_perm).
  destruct (head_nonempty x) as (n & Hn & Hin).
  - intros Hnil. rewrite Hnil in Hperm. symmetry in Hperm.
    apply Permutation_nil_r in Hperm. revert Hperm.
    by apply dict_get_nonempty; [apply accumulate_nonempty|].
  - exists n. by rewrite <- Hperm.
Qed.

Lemma groups_order_independent scope h h' ncs ncs' :
  NoDup (nc_node_index <$> ncs) → ncs ≡ₚ ncs' →
  sorted group_key false (tuples h (accumulate scope ncs))
  = sorted group_key false (tuples h' (accumulate scope ncs')).
Proof.
  intros Hidx Hperm. rewrite !tuples_keys by apply accumulate_keys_NoDup.
  set (g := λ k, sorted node_index false
                   (set_iter h (dict_get (accumulate scope ncs) k))).
  set (g' := λ k, sorted node_index false
                    (set_iter h' (dict_get (accumulate scope ncs') k))).
  assert (∀ k, g k = g' k) as Hg.
  { intros k. apply sorted_unique.
    - rewrite !set_iter_perm. by apply accumulate_get_perm.
    - intros n1 n2 Hn1 Hn2 Heq. rewrite set_iter_perm in Hn1, Hn2.
      by destruct (accumulate_index_inj scope ncs k k n1 n2). }
  trans (sorted group_key false (g <$> (accumulate scope ncs').*1)).
  - apply sorted_unique; [by apply fmap_Permutation, accumulate_keys_perm|].
    intros x1 x2 (k1 & -> & Hk1)%list_elem_of_fmap
      (k2 & -> & Hk2)%list_elem_of_fmap Hkey.
    destruct (tuple_first scope h ncs k1 Hk1) as (n1 & Hhd1 & Hn1).
    destruct (tuple_first scope h ncs k2 Hk2) as (n2 & Hhd2 & Hn2).
    unfold g in Hkey.
    rewrite (group_key_head _ _ Hhd1), (group_key_head _ _ Hhd2) in Hkey.
    by destruct (accumulate_index_inj scope ncs k1 k2 n1 n2) as [_ ->].
  - f_equal. apply Forall_fmap_ext_1, Forall_forall. auto.
Qed.

(** C5, amended. The groups come out in canonical order: every group is
    sorted by node index, its first member being of smallest index, and the
    groups are sorted by the index of their first member.  With pairwise
    distinct node indices the output is the same whatever the order in
    which the sets are iterated and the input is listed. *)
Theorem group_nodes_by_scope_canonical h client ncs ri :
  ∃ out, group_nodes_by_scope h client (Some ncs) (Some ri) = Return out
    ∧ Forall (λ g, StronglySorted (λ a b, node_index a ≤ node_index b) g
                   ∧ ∃ n0, head g = Some n0
                       ∧ ∀ n, n ∈ g → node_index n0 ≤ node_index n) out
    ∧ StronglySorted
        (λ g1 g2, ∀ n1 n2, head g1 = Some n1 → head g2 = Some n2 →
                           node_index n1 ≤ node_index n2) out
    ∧ (NoDup (nc_node_index <$> ncs) →
       ∀ h' client' ncs', ncs ≡ₚ ncs' →
         group_nodes_by_scope h' client' (Some ncs') (Some ri) = Return out).
Proof.
  eexists. split; [apply group_nodes_by_scope_returns|].
  set (scope := domain (tolerable_failure_domains ri)).
  split_and!.
  - apply Forall_forall. intros g Hg. rewrite sorted_perm in Hg.
    assert (g ≠ []) as Hne.
    { revert g Hg. apply Forall_forall, tuples_nonempty, accumulate_nonempty. }
    apply list_elem_of_fmap in Hg as ([k s] & -> & _). simpl in *.
    set (g := sorted node_index false (set_iter h s)) in *.
    assert (StronglySorted (λ a b, node_index a ≤ node_index b) g) as Hsorted.
    { eapply StronglySorted_weaken; [|apply sorted_sorted].
      by intros a b Hab%in_order_spec. }
    split; [done|]. destruct g as [|n0 g]; [done|]. exists n0. split; [done|].
    apply StronglySorted_inv in Hsorted as [_ Hn0].
    intros n [->|Hn]%elem_of_cons; [lia|]. by eapply Forall_forall in Hn0.
  - eapply StronglySorted_weaken; [|apply sorted_sorted].
    intros g1 g2 Hle%in_order_spec n1 n2 Hn1 Hn2.
    by rewrite (group_key_head _ _ Hn1), (group_key_head _ _ Hn2) in Hle.
  - intros Hidx h' client' ncs' Hperm. rewrite group_nodes_by_scope_returns.
    f_equal. symmetry. by apply groups_order_independent.
Qed.

(** *** Scope NODE *)

Lemma location_NODE nc : location NODE nc = KIndex (nc_node_index nc).
Proof. unfold location. by rewrite decide_False by (intros Hne; by apply Hne). Qed.

Lemma loop_NODE d ncs :
  NoDup (d.*1 ++ (KIndex ∘ nc_node_index <$> ncs)) →
  foldl (λ ret nc, dict_add (location NODE nc) (node_id nc) ret) d ncs
  = d ++ ((λ nc, (KIndex (nc_node_index nc), [node_id nc])) <$> ncs).
Proof.
  revert d. induction ncs as [|nc ncs IH]; intros d; csimpl.
  - intros _. by rewrite app_nil_r.
  - intros Hnd. rewrite <- Permutation_middle in Hnd.
    apply NoDup_cons in Hnd as [Hnew Hnd]. rewrite elem_of_app in Hnew.
    rewrite location_NODE, dict_add_fresh by tauto.
    rewrite IH; [by rewrite <- (assoc (++))|].
    rewrite fmap_app. csimpl. rewrite <- (assoc (++)). simpl.
    rewrite <- Permutation_middle. apply NoDup_cons. by rewrite elem_of_app.
Qed.

(** C6. Under scope NODE and with pairwise distinct node indices there are
    as many groups as input nodes and every group is made of the identity of
    one node: the groups are the singletons of the nodes, in the order of
    their indices. *)
Theorem group_nodes_by_scope_NODE h client ncs ri :
  domain (tolerable_failure_domains ri) = NODE →
  NoDup (nc_node_index <$> ncs) →
  ∃ out, group_nodes_by_scope h client (Some ncs) (Some ri) = Return out
    ∧ length out = length ncs
    ∧ Forall (λ g, ∃ nc, nc ∈ ncs ∧ g = [node_id nc]) out
    ∧ out = (λ nc, [node_id nc]) <$> sorted nc_node_index false ncs.
Proof.
  intros Hscope Hidx.
  assert (group_nodes_by_scope h client (Some ncs) (Some ri)
          = Return ((λ nc, [node_id nc]) <$> sorted nc_node_index false ncs))
    as Hout.
  { rewrite group_nodes_by_scope_returns, Hscope. f_equal.
    unfold accumulate. rewrite loop_NODE; simpl.
    - assert (tuples h ((λ nc, (KIndex (nc_node_index nc), [node_id nc])) <$> ncs)
              = (λ nc, [node_id nc]) <$> ncs) as ->.
      { unfold tuples. rewrite <- list_fmap_compose.
        apply Forall_fmap_ext_1, Forall_forall. intros nc _. simpl.
        assert (set_iter h [node_id nc] = [node_id nc]) as ->; [|done].
        apply Permutation_singleton_r, set_iter_perm. }
      by rewrite (sorted_fmap group_key false (λ nc, [node_id nc])).
    - rewrite list_fmap_compose. apply NoDup_fmap_2; [|done].
      by intros ?? [=]. }
  eexists. split; [exact Hout|]. split_and!; [| |done].
  - by rewrite length_fmap, (Permutation_length (sorted_perm _ _ _)).
  - apply Forall_fmap, Forall_forall. intros nc Hnc. exists nc.
    split; [|done]. by rewrite sorted_perm in Hnc.
Qed.

End GroupingFacts.

(** ** Counting members *)
Section CountFacts.
Context {A : Type} `{EqDecision A}.
Implicit Types (x : A) (l : list A).

Lemma occurrences_app x l1 l2 :
  occurrences x (l1 ++ l2) = (occurrences x l1 + occurrences x l2)%nat.
Proof. unfold occurrences. by rewrite filter_app, length_app. Qed.

Lemma occurrences_perm x l1 l2 :
  l1 ≡ₚ l2 → occurrences x l1 = occurrences x l2.
Proof. intros Hperm. unfold occurrences. by rewrite Hperm. Qed.

Lemma occurrences_none x l : x ∉ l → occurrences x l = 0%nat.
Proof.
  unfold occurrences. induction l as [|y l IH]; [done|].
  rewrite not_elem_of_cons. intros [Hxy Hl].
  rewrite filter_cons, decide_False by done. auto.
Qed.

Lemma occurrences_NoDup x l : NoDup l → x ∈ l → occurrences x l = 1%nat.
Proof.
  induction 1 as [|y l Hy Hl IH]; [by intros ?%not_elem_of_nil|].
  rewrite elem_of_cons. change (y :: l) with ([y] ++ l).
  rewrite occurrences_app. unfold occurrences at 1.
  rewrite filter_cons. intros [->|Hx].
  - rewrite decide_True by done. by rewrite occurrences_none.
  - rewrite decide_False by (by intros ->). simpl. auto.
Qed.

(** a member of one list only, once in it, is once in the lists taken
    together *)
Lemma occurrences_concat_once {K : Type} (g : K → list A) (ks : list K) k1 x :
  NoDup ks → k1 ∈ ks → (∀ k, k ∈ ks → x ∈ g k → k = k1) →
  NoDup (g k1) → x ∈ g k1 →
  occurrences x (concat (g <$> ks)) = 1%nat.
Proof.
  intros Hks Hk1 Honly Hnd Hx.
  induction Hks as [|k ks Hk Hks IH]; [by apply not_elem_of_nil in Hk1|].
  csimpl. rewrite occurrences_app.
  apply elem_of_cons in Hk1 as [<-|Hk1].
  - rewrite (occurrences_NoDup x (g k1)) by done.
    rewrite occurrences_none; [done|].
    intros (gk & (k' & -> & Hk')%list_elem_of_fmap & Hin)%elem_of_concat.
    destruct Hk. rewrite <- (Honly k'); [done|by right|done].
  - rewrite (occurrences_none x (g k)), IH; [done|done| |].
    + intros k' Hk' Hin. apply Honly; [by right|done].
    + intros Hin. destruct Hk. rewrite (Honly k); [done|by left|done].
Qed.

End CountFacts.

(** ** Repeated nodes and the scenario of the specification *)
Section MoreGroupingFacts.
Context `{Imports}.
Implicit Types (h : HashOrder NodeID) (client : AdminAPI).
Implicit Types (ncs : list NodeConfig) (ri : ReplicationInfo).

Lemma dict_sets (d : list (LocationKey * list NodeID)) :
  NoDup d.*1 → d.*2 = dict_get d <$> d.*1.
Proof. intros Hd. by rewrite <- (dict_values (λ s, s)). Qed.

(** the second of two entries of the same identity and key adds no member *)
Lemma accumulate_repeated_length scope ncs (i j : nat) nc1 nc2 :
  (i < j)%nat → ncs !! i = Some nc1 → ncs !! j = Some nc2 →
  node_id nc1 = node_id nc2 → location scope nc1 = location scope nc2 →
  (length (concat (accumulate scope ncs).*2) < length ncs)%nat.
Proof.
  intros Hij Hi Hj Hid Hloc.
  pose proof (lookup_lt_Some _ _ _ Hj) as Hlen.
  rewrite <- (take_drop_middle ncs j nc2 Hj) at 1.
  unfold accumulate. rewrite foldl_app. simpl.
  eapply Nat.le_lt_trans; [apply loop_length|].
  rewrite dict_add_length, decide_True.
  - pose proof (loop_length scope [] (take j ncs)) as Hle. simpl in Hle.
    rewrite length_take in Hle. rewrite length_drop. lia.
  - apply (accumulate_get scope (take j ncs)). exists nc1. split_and!; [|done..].
    apply list_elem_of_lookup. exists i. by rewrite lookup_take_lt.
Qed.

(** C9, amended. Two entries of the input that give the same identity and
    the same key are accumulated into one member: no group holds an
    identity twice, the identity is in a group, the groups have fewer members
    in all than the input has entries, and the identity is in the output
    exactly once when no entry gives it with another key. *)
Theorem group_nodes_by_scope_repeated h client ncs ri (i j : nat) nc1 nc2 :
  i ≠ j → ncs !! i = Some nc1 → ncs !! j = Some nc2 →
  node_id nc1 = node_id nc2 →
  location (domain (tolerable_failure_domains ri)) nc1
  = location (domain (tolerable_failure_domains ri)) nc2 →
  ∃ out, group_nodes_by_scope h client (Some ncs) (Some ri) = Return out
    ∧ Forall NoDup out
    ∧ (∃ g, g ∈ out ∧ node_id nc1 ∈ g)
    ∧ (length (concat out) < length ncs)%nat
    ∧ ((∀ nc, nc ∈ ncs → node_id nc = node_id nc1 →
          location (domain (tolerable_failure_domains ri)) nc
          = location (domain (tolerable_failure_domains ri)) nc1) →
       occurrences (node_id nc1) (concat out) = 1%nat).
Proof.
  intros Hij Hi Hj Hid Hloc.
  eexists. split; [apply group_nodes_by_scope_returns|].
  set (scope := domain (tolerable_failure_domains ri)) in *.
  set (d := accumulate scope ncs).
  assert (NoDup d.*1) as Hkeys by apply accumulate_keys_NoDup.
  assert (concat (sorted group_key false (tuples h d)) ≡ₚ concat d.*2) as Hperm
    by (by rewrite (concat_perm _ _ (sorted_perm _ _ _)), concat_tuples).
  assert (nc1 ∈ ncs) as Hnc1 by (by eapply list_elem_of_lookup_2).
  assert (node_id nc1 ∈ dict_get d (location scope nc1)) as Hin
    by (apply accumulate_get; by exists nc1).
  split_and!.
  - apply Forall_forall. intros g. rewrite sorted_perm, tuples_keys by done.
    intros (k & -> & _)%list_elem_of_fmap.
    rewrite sorted_perm, set_iter_perm. apply accumulate_get_NoDup.
  - apply elem_of_concat. rewrite Hperm, dict_sets by done.
    apply elem_of_concat. eexists. split; [|exact Hin].
    apply list_elem_of_fmap_2, accumulate_keys. by exists nc1.
  - rewrite Hperm. unfold d.
    destruct (decide (i < j)%nat).
    + by apply (accumulate_repeated_length scope ncs i j nc1 nc2).
    + apply (accumulate_repeated_length scope ncs j i nc2 nc1); [lia|done..].
  - intros Honly. rewrite (occurrences_perm _ _ _ Hperm), dict_sets by done.
    apply (occurrences_concat_once _ _ (location scope nc1));
      [done|apply accumulate_keys; by exists nc1| |apply accumulate_get_NoDup|done].
    intros k _ (nc & Hnc & <- & Heq)%accumulate_get. by apply Honly.
Qed.

(** two nodes that differ in the label of a level of the key have
    different keys *)
Lemma location_differs scope level (nc nc' : NodeConfig) :
  scope ≠ NODE → level ∈ key_levels scope →
  label nc level ≠ label nc' level →
  location scope nc ≠ location scope nc'.
Proof.
  intros Hscope Hlevel Hlabel. unfold location. rewrite !decide_True by done.
  intros [= Heq]. apply Forall_fmap_ext in Heq.
  by eapply Forall_forall in Heq.
Qed.

Lemma label_rack rack dc i a n rack_label dc_label :
  label (labelled_node rack dc i a n rack_label dc_label) rack = rack_label.
Proof. unfold label. simpl. by rewrite lookup_insert_eq. Qed.

Lemma label_dc rack dc i a n rack_label dc_label :
  dc ≠ rack →
  label (labelled_node rack dc i a n rack_label dc_label) dc = dc_label.
Proof.
  intros Hne. unfold label. simpl.
  by rewrite lookup_insert_ne, lookup_insert_eq.
Qed.

Section RackScenario.
Context (RACK DC : LocationScope) (iA iB iC iD : Z).
Context (aA aB aC aD : ThriftSocketAddress).

Local Abbreviation A := (labelled_node RACK DC iA aA "A" "r1" "d1").
Local Abbreviation B := (labelled_node RACK DC iB aB "B" "r1" "d1").
Local Abbreviation C := (labelled_node RACK DC iC aC "C" "r2" "d1").
Local Abbreviation D := (labelled_node RACK DC iD aD "D" "r3" "d2").

(** C7. The scenario of the specification: four nodes A, B, C, D of
    increasing index, A and B in rack r1 of datacenter d1, C in rack r2 of
    d1, D in rack r3 of d2.  Under scope RACK, in whatever order the nodes are
    listed, three groups are returned, A with B, then C, then D; A and B
    have the same key, with labels d1 and r1, the keys of C (d1, r2) and of
    D (d2, r3) are different from it and from each other. *)
Theorem group_nodes_by_scope_rack_scenario h client ri ncs :
  RACK ∈ LocationScope_members → RACK ≠ NODE → DC ≠ RACK →
  iA < iB < iC ∧ iC < iD →
  domain (tolerable_failure_domains ri) = RACK →
  ncs ≡ₚ [A; B; C; D] →
  group_nodes_by_scope h client (Some ncs) (Some ri)
    = Return [[node_id A; node_id B]; [node_id C]; [node_id D]]
  ∧ location RACK A = location RACK B
  ∧ location RACK C ≠ location RACK A
  ∧ location RACK D ≠ location RACK A
  ∧ location RACK D ≠ location RACK C
  ∧ (label A DC, label A RACK) = ("d1", "r1")
  ∧ (label C DC, label C RACK) = ("d1", "r2")
  ∧ (label D DC, label D RACK) = ("d2", "r3")
  ∧ (key_levels RACK = [DC; RACK] →
     location RACK A = KTuple ["d1"; "r1"]
     ∧ location RACK C = KTuple ["d1"; "r2"]
     ∧ location RACK D = KTuple ["d2"; "r3"]).
Proof.
  intros Hmember Hscope Hdc Hidx Hri Hperm.
  assert (RACK ∈ key_levels RACK) as Hlevel
    by (apply elem_of_key_levels; split; [done|lia]).
  assert (location RACK B = location RACK A) as HB
    by (unfold location; by rewrite !decide_True by done).
  assert (location RACK C ≠ location RACK A) as HCA.
  { apply (location_differs RACK RACK); [done..|]. by rewrite !label_rack. }
  assert (location RACK D ≠ location RACK A) as HDA.
  { apply (location_differs RACK RACK); [done..|]. by rewrite !label_rack. }
  assert (location RACK D ≠ location RACK C) as HDC.
  { apply (location_differs RACK RACK); [done..|]. by rewrite !label_rack. }
  split_and!; [|done..| | | |]; [|by rewrite label_rack, label_dc..|].
  2:{ intros Hlevels. unfold location. rewrite !decide_True by done.
      rewrite Hlevels. csimpl. by rewrite !label_rack, !label_dc. }
  rewrite group_nodes_by_scope_returns, Hri. f_equal.
  rewrite <- (groups_order_independent RACK (insertion_order NodeID) h [A; B; C; D] ncs);
    [|simpl; repeat (apply NoDup_cons_2; [set_unfold; lia|]); apply NoDup_nil_2
     |done].
  assert (node_id B ≠ node_id A) as Hid
    by (intros [= ?]; lia).
  assert (accumulate RACK [A; B; C; D]
          = [(location RACK A, [node_id A; node_id B]);
             (location RACK C, [node_id C]); (location RACK D, [node_id D])])
    as ->.
  { unfold accumulate. cbn [foldl]. rewrite HB.
    rewrite (dict_add_fresh _ _ []) by apply not_elem_of_nil.
    cbn [app dict_add]. rewrite decide_True by done.
    cbn [dict_add].
    rewrite (decide_False (P := location RACK C = location RACK A)) by done.
    cbn [dict_add].
    rewrite (decide_False (P := location RACK D = location RACK A)) by done.
    cbn [dict_add].
    rewrite (decide_False (P := location RACK D = location RACK C)) by done.
    cbn [dict_add]. unfold set_add.
    by rewrite !decide_False by (set_unfold; naive_solver). }
  unfold tuples. cbn [fmap list_fmap snd set_iter insertion_order].
  rewrite (sorted_id node_index false [node_id A; node_id B]).
  2:{ repeat constructor. apply in_order_spec. simpl. lia. }
  rewrite (sorted_id node_index false [node_id C]) by repeat constructor.
  rewrite (sorted_id node_index false [node_id D]) by repeat constructor.
  apply sorted_id.
  repeat constructor; apply in_order_spec; unfold group_key; simpl; lia.
Qed.

End RackScenario.

End MoreGroupingFacts.

Section GroupingRuns.
#[local] Existing Instance Scenario.imports.
Import Scenario.

Local Abbreviation idA := (node_id (mk_node 0 "A" "r1" "d1")).
Local Abbreviation idB := (node_id (mk_node 1 "B" "r1" "d1")).
Local Abbreviation idC := (node_id (mk_node 2 "C" "r2" "d1")).
Local Abbreviation idD := (node_id (mk_node 3 "D" "r3" "d2")).
Local Abbreviation ida := (node_id (mk_node 1 "a" "r1" "d1")).
Local Abbreviation idb := (node_id (mk_node 1 "b" "r1" "d1")).
Local Abbreviation X := (mk_node 5 "X" "r1" "d1").

Lemma four_nodes_distinct : NoDup (nc_node_index <$> four_nodes).
Proof. apply (bool_decide_unpack _). vm_compute. exact I. Defined.

Lemma group_nodes_by_scope_partition_witness :
  NoDup (nc_node_index <$> four_nodes)
  ∧ ∃ out, group_nodes_by_scope (reverse_order NodeID) idle_client
             (Some four_nodes) (Some (scope_info S_RACK)) = Return out
    ∧ out = [[idA; idB]; [idC]; [idD]]
    ∧ concat out ≡ₚ node_id <$> four_nodes
    ∧ NoDup (concat out).
Proof.
  split; [exact four_nodes_distinct|].
  destruct (group_nodes_by_scope_partition (H:=imports) (reverse_order NodeID)
              idle_client four_nodes (scope_info S_RACK) four_nodes_distinct)
    as (out & Hout & Hperm & _ & Hnd & _).
  exists out. split_and!; [done| |done..].
  assert (Return out = Return [[idA; idB]; [idC]; [idD]])
    as [= ->]; [|done].
  rewrite <- Hout. vm_compute. reflexivity.
Defined.

(** C5 as stated fails: two nodes of the same index in one group come out
    in the order in which the set happens to be iterated. *)
Lemma group_nodes_by_scope_order_dependent :
  group_nodes_by_scope (insertion_order NodeID) idle_client
    (Some same_index_nodes) (Some (scope_info S_RACK)) = Return [[ida; idb]]
  ∧ group_nodes_by_scope (reverse_order NodeID) idle_client
      (Some same_index_nodes) (Some (scope_info S_RACK)) = Return [[idb; ida]]
  ∧ Return (A:=list (list NodeID)) [[ida; idb]] ≠ Return [[idb; ida]].
Proof.
  split_and!; [vm_compute; reflexivity..|]. intros [=].
Qed.

Lemma group_nodes_by_scope_canonical_witness :
  NoDup (nc_node_index <$> four_nodes)
  ∧ reverse four_nodes ≡ₚ four_nodes
  ∧ group_nodes_by_scope (reverse_order NodeID) idle_client
      (Some (reverse four_nodes)) (Some (scope_info S_RACK))
    = group_nodes_by_scope (insertion_order NodeID) idle_client
        (Some four_nodes) (Some (scope_info S_RACK)).
Proof.
  split; [exact four_nodes_distinct|]. split; [apply reverse_Permutation|].
  destruct (group_nodes_by_scope_canonical (H:=imports) (insertion_order NodeID)
              idle_client four_nodes (scope_info S_RACK))
    as (out & Hout & _ & _ & Hsame).
  rewrite Hout. apply Hsame; [exact four_nodes_distinct|].
  symmetry. apply reverse_Permutation.
Defined.

Lemma group_nodes_by_scope_NODE_witness :
  domain (tolerable_failure_domains (scope_info S_NODE)) = NODE
  ∧ NoDup (nc_node_index <$> four_nodes)
  ∧ ∃ out, group_nodes_by_scope (reverse_order NodeID) idle_client
             (Some four_nodes) (Some (scope_info S_NODE)) = Return out
    ∧ length out = 4%nat
    ∧ out = [[idA]; [idB]; [idC]; [idD]].
Proof.
  split; [reflexivity|]. split; [exact four_nodes_distinct|].
  destruct (group_nodes_by_scope_NODE (H:=imports) (reverse_order NodeID)
              idle_client four_nodes (scope_info S_NODE) eq_refl
              four_nodes_distinct)
    as (out & Hout & Hlen & _ & ->).
  eexists. split; [exact Hout|]. split; [exact Hlen|].
  vm_compute. reflexivity.
Defined.

Lemma group_nodes_by_scope_rack_scenario_witness :
  S_RACK ∈ LocationScope_members ∧ S_RACK ≠ NODE ∧ S_DATACENTER ≠ S_RACK
  ∧ (0 < 1 < 2 ∧ 2 < 3)
  ∧ group_nodes_by_scope (reverse_order NodeID) idle_client
      (Some (reverse four_nodes)) (Some (scope_info S_RACK))
    = Return [[idA; idB]; [idC]; [idD]]
  ∧ key_levels (H:=three_levels) S_RACK = [S_DATACENTER; S_RACK]
  ∧ location (H:=three_levels) S_RACK
      (labelled_node (H:=three_levels) S_RACK S_DATACENTER 0 "[::1]:4440"
         "A" "r1" "d1")
    = KTuple ["d1"; "r1"].
Proof.
  assert (S_RACK ∈ LocationScope_members) as Hmember
    by (apply (bool_decide_unpack _); vm_compute; exact I).
  assert (S_RACK ≠ NODE) as Hscope by (intros [=]).
  assert (S_DATACENTER ≠ S_RACK) as Hdc by (intros [=]).
  assert (0 < 1 < 2 ∧ 2 < 3) as Hidx by lia.
  assert (key_levels (H:=three_levels) S_RACK = [S_DATACENTER; S_RACK])
    as Hlevels by (vm_compute; reflexivity).
  split_and!; [done..| |done|].
  - apply (group_nodes_by_scope_rack_scenario (H:=imports)
             S_RACK S_DATACENTER 0 1 2 3
             "[::1]:4440" "[::1]:4441" "[::1]:4442" "[::1]:4443"
             (reverse_order NodeID) idle_client (scope_info S_RACK)
             (reverse four_nodes) Hmember Hscope Hdc Hidx eq_refl).
    apply reverse_Permutation.
  - apply (group_nodes_by_scope_rack_scenario (H:=three_levels)
             S_RACK S_DATACENTER 0 1 2 3
             "[::1]:4440" "[::1]:4441" "[::1]:4442" "[::1]:4443"
             (insertion_order _)
             (@Build_AdminAPI three_levels
                (λ _, ExceptionObject (NotSupported ""))
                (ExceptionObject (NotSupported ""))
                (ExceptionObject (NotSupported ""))
                (ExceptionObject (NotSupported "")))
             (@Build_ReplicationInfo three_levels
                (@Build_TolerableFailureDomain three_levels S_RACK 1))
             _ ltac:(apply (bool_decide_unpack _); vm_compute; exact I)
             Hscope Hdc Hidx eq_refl (reflexivity _)).
    exact Hlevels.
Defined.

(** C9 as stated fails: the node listed a third time in another rack is in
    the output twice, once in each group. *)
Lemma group_nodes_by_scope_repeated_elsewhere :
  repeated_node !! 0%nat = Some X
  ∧ repeated_node !! 1%nat = Some X
  ∧ group_nodes_by_scope (insertion_order NodeID) idle_client
      (Some repeated_node) (Some (scope_info S_RACK))
    = Return [[node_id X]; [node_id X]]
  ∧ occurrences (node_id X) (concat [[node_id X]; [node_id X]]) = 2%nat.
Proof.
  split_and!; vm_compute; reflexivity.
Qed.

Lemma group_nodes_by_scope_repeated_witness :
  0%nat ≠ 1%nat
  ∧ doubled_node !! 0%nat = Some X ∧ doubled_node !! 1%nat = Some X
  ∧ (∀ nc, nc ∈ doubled_node → node_id nc = node_id X →
       location S_RACK nc = location S_RACK X)
  ∧ ∃ out, group_nodes_by_scope (insertion_order NodeID) idle_client
             (Some doubled_node) (Some (scope_info S_RACK)) = Return out
    ∧ (length (concat out) < length doubled_node)%nat
    ∧ occurrences (node_id X) (concat out) = 1%nat.
Proof.
  assert (∀ nc, nc ∈ doubled_node → node_id nc = node_id X →
            location S_RACK nc = location S_RACK X) as Honly.
  { intros nc Hnc Hid. unfold doubled_node in Hnc.
    apply elem_of_cons in Hnc as [->|Hnc]; [done|].
    apply elem_of_cons in Hnc as [->|Hnc]; [done|].
    apply list_elem_of_singleton in Hnc as ->. discriminate Hid. }
  split_and!; [lia|reflexivity|reflexivity|exact Honly|].
  destruct (group_nodes_by_scope_repeated (H:=imports) (insertion_order NodeID)
              idle_client doubled_node (scope_info S_RACK) 0 1 X X
              ltac:(lia) eq_refl eq_refl eq_refl eq_refl)
    as (out & Hout & _ & _ & Hlen & Honce).
  exists out. split_and!; [done|done|by apply Honce].
Defined.

End GroupingRuns.

(** * The other functions of the module *)

(** ** Dicts and frozensets built by comprehension *)
Section DictSetFacts.
Context {K V : Type} `{EqDecision K}.
Implicit Types (d : list (K * V)) (k q : K) (v : V).

Lemma dict_lookup_set k v d q :
  dict_lookup (dict_set k v d) q
  = if decide (q = k) then Some v else dict_lookup d q.
Proof.
  induction d as [|[k' v'] d IH]; simpl; [done|].
  destruct (decide (k = k')) as [->|Hk]; simpl.
  - by destruct (decide (q = k')).
  - rewrite IH. destruct (decide (q = k')), (decide (q = k)); congruence.
Qed.

Lemma dict_set_keys k v d : (dict_set k v d).*1 = set_add k d.*1.
Proof.
  unfold set_add. induction d as [|[k' v'] d IH].
  - by rewrite decide_False by apply not_elem_of_nil.
  - cbn [dict_set]. destruct (decide (k = k')) as [->|Hk].
    + by rewrite decide_True by apply list_elem_of_here.
    + rewrite !fmap_cons, IH. cbn [fst].
      destruct (decide (k ∈ d.*1)) as [Hin|Hin].
      * by rewrite decide_True by by apply list_elem_of_further.
      * rewrite decide_False; [done|]. rewrite elem_of_cons. tauto.
Qed.

Lemma dict_lookup_None d k : dict_lookup d k = None ↔ k ∉ d.*1.
Proof.
  induction d as [|[k' v'] d IH]; simpl.
  - split; [intros _; apply not_elem_of_nil|done].
  - rewrite not_elem_of_cons. destruct (decide (k = k')); [|tauto].
    split; [done|tauto].
Qed.

End DictSetFacts.

Section ComprehensionFacts.
Context {X K V : Type} `{EqDecision K} (key : X → K) (val : X → V).
Implicit Types (d : list (K * V)) (l : list X) (x : X) (q : K).

Local Abbreviation fill := (λ d x, dict_set (key x) (val x) d).

Lemma fill_lookup_other d l q :
  (∀ x, x ∈ l → key x ≠ q) →
  dict_lookup (foldl fill d l) q = dict_lookup d q.
Proof.
  revert d. induction l as [|x l IH]; intros d Hl; simpl; [done|].
  rewrite IH by (intros y Hy; apply Hl; by right).
  rewrite dict_lookup_set, decide_False; [done|].
  intros ->. by apply (Hl x); [left|].
Qed.

(** the value of a key is the one of the last element that has the key *)
Lemma fill_lookup_last d l1 x l2 :
  (∀ y, y ∈ l2 → key y ≠ key x) →
  dict_lookup (foldl fill d (l1 ++ x :: l2)) (key x) = Some (val x).
Proof.
  intros Hl2. rewrite foldl_app. simpl.
  rewrite fill_lookup_other by done.
  by rewrite dict_lookup_set, decide_True.
Qed.

Lemma fill_lookup_Some d l q v :
  dict_lookup (foldl fill d l) q = Some v →
  dict_lookup d q = Some v ∨ ∃ x, x ∈ l ∧ key x = q ∧ val x = v.
Proof.
  revert d. induction l as [|x l IH]; intros d; simpl; [auto|].
  intros [Hd|(y & Hy & Hk & Hv)]%IH.
  - rewrite dict_lookup_set in Hd. destruct (decide (q = key x)) as [->|].
    + injection Hd as <-. right. exists x. split_and!; [left|done..].
    + by left.
  - right. exists y. split_and!; [by right|done..].
Qed.

Lemma fill_keys d l :
  (foldl fill d l).*1 = foldl (λ s x, set_add (key x) s) d.*1 l.
Proof.
  revert d. induction l as [|x l IH]; intros d; simpl; [done|].
  by rewrite IH, dict_set_keys.
Qed.

End ComprehensionFacts.

Section FrozensetFacts.
Context {X A : Type} `{EqDecision A} (f : X → A).
Implicit Types (s : list A) (l : list X) (y : A).

Local Abbreviation grow := (λ s x, set_add (f x) s).

Lemma grow_elem_of s l y :
  y ∈ foldl grow s l ↔ y ∈ s ∨ ∃ x, x ∈ l ∧ f x = y.
Proof.
  revert s. induction l as [|x l IH]; intros s; simpl.
  - split; [auto|]. intros [|(x & []%not_elem_of_nil & _)]. done.
  - rewrite IH, elem_of_set_add. setoid_rewrite elem_of_cons. naive_solver.
Qed.

Lemma grow_NoDup s l : NoDup s → NoDup (foldl grow s l).
Proof.
  revert s. induction l as [|x l IH]; intros s Hs; simpl; [done|].
  by apply IH, set_add_NoDup.
Qed.

Lemma grow_length s l : (length (foldl grow s l) ≤ length s + length l)%nat.
Proof.
  revert s. induction l as [|x l IH]; intros s; simpl; [lia|].
  etrans; [apply IH|]. rewrite set_add_length. case_decide; lia.
Qed.

Lemma grow_distinct s l :
  NoDup (s ++ (f <$> l)) → foldl grow s l = s ++ (f <$> l).
Proof.
  revert s. induction l as [|x l IH]; intros s; csimpl.
  - intros _. by rewrite app_nil_r.
  - intros Hnd. assert (f x ∉ s) as Hx.
    { apply NoDup_app in Hnd as (_ & Hsep & _). intros Hin.
      apply (Hsep _ Hin). left. }
    unfold set_add. rewrite decide_False by done.
    rewrite IH; rewrite <- (assoc (++)); done.
Qed.

Lemma elem_of_frozenset_of l y :
  y ∈ frozenset_of f l ↔ ∃ x, x ∈ l ∧ f x = y.
Proof.
  unfold frozenset_of. rewrite grow_elem_of.
  split; [|auto]. intros [[]%not_elem_of_nil|]. done.
Qed.

End FrozensetFacts.

(** ** [get_nodes] and [get_nodes_config] *)
Section NodeCollections.
Context `{StateImports}.
Implicit Types (client : AdminAPI) (resp : NodesConfigResponse).

Lemma node_of_config_inj (l : list NodeConfig) :
  NoDup (nc_node_index <$> l) → NoDup (_get_node_by_node_config <$> l).
Proof.
  intros Hnd. apply NoDup_fmap_2_strong; [|by eapply NoDup_fmap_1].
  intros nc1 nc2 Hnc1 Hnc2 Heq. apply (NoDup_fmap_eq nc_node_index l); [done..|].
  by apply (f_equal n_node_index) in Heq.
Qed.

(** X1. When the node-config query answers, [get_nodes] returns the set of
    the nodes built from the records of the response: no node twice, a node
    is in the set exactly when a record builds it, there are no more nodes
    than records, and as many when the records have distinct indices. *)
Theorem get_nodes_is_set_of_records client resp :
  getNodesConfig client no_filter = Response resp →
  ∃ s, get_nodes client = Return s
    ∧ NoDup s
    ∧ (∀ n, n ∈ s ↔ ∃ nc, nc ∈ nodes resp ∧ _get_node_by_node_config nc = n)
    ∧ (length s ≤ length (nodes resp))%nat
    ∧ (NoDup (nc_node_index <$> nodes resp) →
       s = _get_node_by_node_config <$> nodes resp).
Proof.
  intros Hresp. unfold get_nodes. rewrite Hresp. simpl.
  eexists. split; [done|]. split_and!.
  - apply grow_NoDup. constructor.
  - intros n. apply elem_of_frozenset_of.
  - apply (grow_length _ []).
  - intros Hnd. unfold frozenset_of. rewrite grow_distinct; [done|].
    by apply node_of_config_inj.
Qed.

(** X2. When the node-config query answers, [get_nodes_config] returns a
    dict in which a record is found under the node it builds unless a later
    record builds the same node (the last one wins); whatever is found under
    a node is a record of the response that builds that node; with distinct
    indices every record is found under its node. *)
Theorem get_nodes_config_lookup client resp :
  getNodesConfig client no_filter = Response resp →
  ∃ d, get_nodes_config client = Return d
    ∧ NoDup d.*1
    ∧ (∀ l1 nc l2, nodes resp = l1 ++ nc :: l2 →
         (∀ nc', nc' ∈ l2 →
            _get_node_by_node_config nc' ≠ _get_node_by_node_config nc) →
         dict_lookup d (_get_node_by_node_config nc) = Some nc)
    ∧ (∀ n nc, dict_lookup d n = Some nc →
         nc ∈ nodes resp ∧ _get_node_by_node_config nc = n)
    ∧ (NoDup (nc_node_index <$> nodes resp) →
       ∀ nc, nc ∈ nodes resp →
         dict_lookup d (_get_node_by_node_config nc) = Some nc).
Proof.
  intros Hresp. unfold get_nodes_config. rewrite Hresp. simpl.
  eexists. split; [done|]. unfold dict_comprehension.
  assert (∀ l1 nc l2, nodes resp = l1 ++ nc :: l2 →
            (∀ nc', nc' ∈ l2 →
               _get_node_by_node_config nc' ≠ _get_node_by_node_config nc) →
            dict_lookup
              (foldl (λ d x, dict_set (_get_node_by_node_config x) x d) []
                 (nodes resp))
              (_get_node_by_node_config nc) = Some nc) as Hlast.
  { intros l1 nc l2 -> Hl2.
    by apply (fill_lookup_last _get_node_by_node_config (λ nc, nc)). }
  split_and!; [| exact Hlast | |].
  - rewrite fill_keys. apply grow_NoDup. constructor.
  - intros n nc [[=]|(x & Hx & <- & <-)]%fill_lookup_Some. done.
  - intros Hnd nc (l1 & l2 & Hsplit)%list_elem_of_split.
    apply (Hlast l1 nc l2 Hsplit). intros nc' Hnc' Heq.
    apply node_of_config_inj in Hnd. rewrite Hsplit, fmap_app in Hnd.
    apply NoDup_app in Hnd as (_ & _ & Hnd). csimpl in Hnd.
    apply NoDup_cons in Hnd as [Hnew _]. apply Hnew.
    rewrite <- Heq. by apply list_elem_of_fmap_2.
Qed.


End NodeCollections.

(** ** [get_nodes_state] *)
Section NodeStates.
Context `{StateImports}.
Implicit Types (client : AdminAPI) (index : list (Z * Node)).
Implicit Types (sts : list NodeState) (ns : NodeState).
Implicit Types (acc d : list (Node * NodeState)) (n : Node).

Lemma node_index_to_node_Some (cfg : list NodeConfig) i n :
  dict_lookup (node_index_to_node cfg) i = Some n →
  ∃ nc, nc ∈ cfg ∧ nc_node_index nc = i ∧ _get_node_by_node_config nc = n.
Proof.
  unfold node_index_to_node, dict_comprehension.
  intros [[=]|Hsome]%fill_lookup_Some. done.
Qed.

Lemma node_index_to_node_own (cfg : list NodeConfig) :
  own_index (node_index_to_node cfg).
Proof. by intros i n (nc & _ & <- & <-)%node_index_to_node_Some. Qed.

Lemma node_index_to_node_None (cfg : list NodeConfig) i :
  dict_lookup (node_index_to_node cfg) i = None ↔ i ∉ nc_node_index <$> cfg.
Proof.
  rewrite dict_lookup_None. unfold node_index_to_node, dict_comprehension.
  rewrite fill_keys.
  change (foldl _ _ cfg) with (frozenset_of nc_node_index cfg).
  rewrite elem_of_frozenset_of, list_elem_of_fmap. naive_solver.
Qed.

Lemma states_by_node_raises index l1 ns l2 acc :
  Forall (λ ns', is_Some (dict_lookup index (state_node_index ns'))) l1 →
  dict_lookup index (state_node_index ns) = None →
  states_by_node index (l1 ++ ns :: l2) acc
  = Raised (KeyError (state_node_index ns)).
Proof.
  intros Hl1 Hns. revert acc.
  induction Hl1 as [|ns' l1 [n Hn] _ IH]; intros acc; simpl.
  - by rewrite Hns.
  - rewrite Hn. apply IH.
Qed.

Lemma states_by_node_returns index sts acc :
  Forall (λ ns, is_Some (dict_lookup index (state_node_index ns))) sts →
  ∃ d, states_by_node index sts acc = Returned d.
Proof.
  intros Hsts. revert acc.
  induction Hsts as [|ns sts [n Hn] _ IH]; intros acc; simpl; [by eexists|].
  rewrite Hn. apply IH.
Qed.

Lemma states_by_node_known index sts acc d :
  states_by_node index sts acc = Returned d →
  Forall (λ ns, is_Some (dict_lookup index (state_node_index ns))) sts.
Proof.
  revert acc. induction sts as [|ns sts IH]; intros acc; simpl; [constructor|].
  destruct (dict_lookup index (state_node_index ns)) as [n|] eqn:Hn; [|done].
  intros Hd. constructor; [by eexists|by eapply IH].
Qed.

Lemma states_by_node_keys index sts acc d :
  states_by_node index sts acc = Returned d → NoDup acc.*1 → NoDup d.*1.
Proof.
  revert acc. induction sts as [|ns sts IH]; intros acc; simpl.
  - by intros [= ->].
  - destruct (dict_lookup index (state_node_index ns)) as [n|]; [|done].
    intros Hd Hacc. apply (IH _ Hd). rewrite dict_set_keys.
    by apply set_add_NoDup.
Qed.

(** what is found in the dict was put there for a state, under the node of
    the index of that state *)
Lemma states_by_node_Some index sts acc d n ns :
  states_by_node index sts acc = Returned d →
  dict_lookup d n = Some ns →
  dict_lookup acc n = Some ns
  ∨ (ns ∈ sts ∧ dict_lookup index (state_node_index ns) = Some n).
Proof.
  revert acc. induction sts as [|ns' sts IH]; intros acc; simpl.
  - intros [= ->]. auto.
  - destruct (dict_lookup index (state_node_index ns')) as [n'|] eqn:Hn';
      [|done].
    intros Hd Hlook. destruct (IH _ Hd Hlook) as [Hacc|[Hin Hidx]].
    + rewrite dict_lookup_set in Hacc.
      destruct (decide (n = n')) as [->|]; [|by left].
      injection Hacc as ->. right. split; [left|done].
    + right. split; [by right|done].
Qed.

(** a state stays under its node as long as no later state has its index *)
Lemma states_by_node_kept index sts acc d n ns :
  own_index index →
  states_by_node index sts acc = Returned d →
  (∀ ns', ns' ∈ sts → state_node_index ns' ≠ n_node_index n) →
  dict_lookup d n = dict_lookup acc n.
Proof.
  intros Hown. revert acc. induction sts as [|ns' sts IH]; intros acc; simpl.
  - by intros [= ->].
  - destruct (dict_lookup index (state_node_index ns')) as [n'|] eqn:Hn';
      [|done].
    intros Hd Hother. rewrite (IH _ Hd) by (intros; apply Hother; by right).
    rewrite dict_lookup_set, decide_False; [done|].
    intros ->. apply (Hother ns'); [left|]. symmetry. by apply Hown.
Qed.

Lemma states_by_node_last index l1 ns l2 acc d :
  own_index index →
  states_by_node index (l1 ++ ns :: l2) acc = Returned d →
  (∀ ns', ns' ∈ l2 → state_node_index ns' ≠ state_node_index ns) →
  ∃ n, dict_lookup index (state_node_index ns) = Some n
       ∧ dict_lookup d n = Some ns.
Proof.
  intros Hown. revert acc. induction l1 as [|ns' l1 IH]; intros acc; simpl.
  - destruct (dict_lookup index (state_node_index ns)) as [n|] eqn:Hn; [|done].
    intros Hd Hl2. exists n. split; [done|].
    rewrite (states_by_node_kept index l2 _ d n ns Hown Hd).
    + by rewrite dict_lookup_set, decide_True.
    + intros ns' Hns'. rewrite (Hown _ _ Hn). by apply Hl2.
  - destruct (dict_lookup index (state_node_index ns')) as [n'|]; [|done].
    apply IH.
Qed.

(** X4. When both queries of [get_nodes_state] answer and a state has an
    index that no node configuration has, the function raises KeyError with
    the index of the first such state. *)
Theorem get_nodes_state_unknown_index b client cfg st l1 ns l2 :
  getNodesConfig client no_filter = Response cfg →
  getNodesState client = Response st →
  states st = l1 ++ ns :: l2 →
  (∀ ns', ns' ∈ l1 → state_node_index ns' ∈ nc_node_index <$> nodes cfg) →
  state_node_index ns ∉ nc_node_index <$> nodes cfg →
  get_nodes_state b client = Raised (KeyError (state_node_index ns)).
Proof.
  intros Hcfg Hst Hsplit Hl1 Hns. unfold get_nodes_state.
  rewrite Hcfg, Hst. simpl. rewrite Hsplit.
  apply states_by_node_raises; [|by apply node_index_to_node_None].
  apply Forall_forall. intros ns' Hns'%Hl1.
  apply not_eq_None_Some. rewrite node_index_to_node_None. naive_solver.
Qed.

(** X5. [get_nodes_state] returns exactly when both queries answer and the
    index of every state is the index of a node configuration.  The dict
    returned has every state under a node of its own index, built from a
    node configuration: what is found under a node is a state of the
    response with the index of that node, and every state is found under
    its node unless a later state has the same index. *)
Theorem get_nodes_state_returns b client :
  ((∃ d, get_nodes_state b client = Returned d)
   ↔ ∃ cfg st, getNodesConfig client no_filter = Response cfg
       ∧ getNodesState client = Response st
       ∧ ∀ ns, ns ∈ states st →
           state_node_index ns ∈ nc_node_index <$> nodes cfg)
  ∧ ∀ d cfg st,
      get_nodes_state b client = Returned d →
      getNodesConfig client no_filter = Response cfg →
      getNodesState client = Response st →
      NoDup d.*1
      ∧ (∀ n ns, dict_lookup d n = Some ns →
           ns ∈ states st ∧ n_node_index n = state_node_index ns
           ∧ ∃ nc, nc ∈ nodes cfg ∧ _get_node_by_node_config nc = n)
      ∧ (∀ l1 ns l2, states st = l1 ++ ns :: l2 →
           (∀ ns', ns' ∈ l2 → state_node_index ns' ≠ state_node_index ns) →
           ∃ n, n_node_index n = state_node_index ns
                ∧ dict_lookup d n = Some ns).
Proof.
  unfold get_nodes_state. split.
  - destruct (getNodesConfig client no_filter) as [cfg|e1|cls1],
      (getNodesState client) as [st|e2|cls2]; simpl.
    2-9: split; [by intros [d ?]|by intros (? & ? & ? & ? & _)].
    split.
    + intros [d Hd%states_by_node_known]. exists cfg, st. split_and!; [done..|].
      intros ns Hns. eapply Forall_forall in Hd as [n Hn]; [|done].
      destruct (decide (state_node_index ns ∈ nc_node_index <$> nodes cfg))
        as [|Hno]; [done|].
      apply node_index_to_node_None in Hno. congruence.
    + intros (cfg' & st' & [= <-] & [= <-] & Hknown).
      apply states_by_node_returns, Forall_forall. intros ns Hns%Hknown.
      apply not_eq_None_Some. rewrite node_index_to_node_None. naive_solver.
  - intros d cfg st Hd Hcfg Hst. rewrite Hcfg, Hst in Hd. simpl in Hd.
    split_and!.
    + eapply states_by_node_keys; [done|constructor].
    + intros n ns Hlook.
      destruct (states_by_node_Some _ _ _ _ _ _ Hd Hlook) as [[=]|[Hin Hidx]].
      split_and!; [done|by apply node_index_to_node_own in Hidx|].
      apply node_index_to_node_Some in Hidx as (nc & ? & _ & ?). by exists nc.
    + intros l1 ns l2 Hsplit Hl2. rewrite Hsplit in Hd.
      destruct (states_by_node_last _ _ _ _ _ _ (node_index_to_node_own _) Hd Hl2)
        as (n & Hidx & Hlook).
      exists n. split; [by apply node_index_to_node_own in Hidx|done].
Qed.

(** X6. [get_nodes_state] raises the error of a query that failed: the one
    of the only query that failed, one of the two when both failed; it then
    returns nothing and raises no KeyError.  A KeyError is raised only when
    both queries answered, and its key is the index of a state that no node
    configuration has.  The only other thing raised is the [BaseException]
    a query ended in. *)
Theorem get_nodes_state_failures b client r :
  get_nodes_state b client = Raised r →
  (∃ e, r = Exn (AdminError e)
        ∧ (getNodesConfig client no_filter = ExceptionObject e
           ∨ getNodesState client = ExceptionObject e)
        ∧ (¬ failed (getNodesState client) →
           getNodesConfig client no_filter = ExceptionObject e)
        ∧ (¬ failed (getNodesConfig client no_filter) →
           getNodesState client = ExceptionObject e))
  ∨ (∃ k cfg st, r = KeyError k
        ∧ getNodesConfig client no_filter = Response cfg
        ∧ getNodesState client = Response st
        ∧ k ∈ state_node_index <$> states st
        ∧ k ∉ nc_node_index <$> nodes cfg)
  ∨ (∃ cls, r = Exn (BaseExceptionRaised cls)
        ∧ (getNodesConfig client no_filter = BaseExceptionObject cls
           ∨ getNodesState client = BaseExceptionObject cls)).
Proof.
  unfold get_nodes_state.
  destruct (getNodesConfig client no_filter) as [cfg|e1|cls1] eqn:Hcfg,
    (getNodesState client) as [st|e2|cls2] eqn:Hst; simpl.
  - intros Hr. right. left.
    assert (∀ sts acc, states_by_node (node_index_to_node (nodes cfg)) sts acc
                       = Raised r →
              ∃ ns, ns ∈ sts ∧ r = KeyError (state_node_index ns)
                ∧ dict_lookup (node_index_to_node (nodes cfg))
                    (state_node_index ns) = None) as Hfind.
    { induction sts as [|ns sts IH]; intros acc; simpl; [done|].
      destruct (dict_lookup _ (state_node_index ns)) as [n|] eqn:Hn.
      - intros (ns' & ? & ?)%IH. exists ns'. split; [by right|done].
      - intros [= <-]. exists ns. split; [left|done]. }
    destruct (Hfind _ _ Hr) as (ns & Hns & -> & Hnone).
    exists (state_node_index ns), cfg, st. split_and!; [done..| |].
    + by apply list_elem_of_fmap_2.
    + by apply node_index_to_node_None.
  - intros [= <-]. left. exists e2. split_and!; [done|by right| |done].
    intros Hno. destruct Hno. by exists e2.
  - intros [= <-]. right. right. exists cls2. split; [done|by right].
  - intros [= <-]. left. exists e1. split_and!; [done|by left|done|].
    intros Hno. destruct Hno. by exists e1.
  - intros [= <-]. left. destruct b; eexists; split_and!; try done.
    + by left.
    + intros Hno. destruct Hno. by exists e1.
    + by right.
    + intros Hno. destruct Hno. by exists e2.
  - intros [= <-]. destruct b.
    + left. exists e1. split_and!; [done|by left|done|].
      intros Hno. destruct Hno. by exists e1.
    + right. right. exists cls2. split; [done|by right].
  - intros [= <-]. right. right. exists cls1. split; [done|by left].
  - intros [= <-]. destruct b.
    + right. right. exists cls1. split; [done|by left].
    + left. exists e2. split_and!; [done|by right| |done].
      intros Hno. destruct Hno. by exists e2.
  - intros [= <-]. right. right. destruct b; eexists; split; try done.
    + by left.
    + by right.
Qed.

End NodeStates.

(** ** More on the cluster view and the lookups *)
Section MoreClusterViewFacts.
Context `{Imports}.
Implicit Types (client : AdminAPI).

(** X7. [get_cluster_view] returns a view exactly when the node-config and
    the node-state queries answer and the maintenance query answers or is
    not supported.  The view then holds the nodes and the states of the two
    answers and the maintenances of the third, or none if that one is not
    supported.  Otherwise what is raised is the error of one of the three
    queries, or AttributeError; AttributeError is raised exactly when the
    maintenance result is a [BaseException] that is no [Exception], or when
    no result is a hard failure and the node-config or the node-state result
    is such a [BaseException]. *)
Theorem get_cluster_view_returns_iff client :
  ((∃ v, get_cluster_view client = Return v)
   ↔ answered (getNodesConfig client no_filter)
     ∧ answered (getNodesState client)
     ∧ ¬ failed_hard (getMaintenances client)
     ∧ ¬ cancelled (getMaintenances client))
  ∧ (∀ v, get_cluster_view client = Return v →
       ∃ cfg st, getNodesConfig client no_filter = Response cfg
         ∧ getNodesState client = Response st
         ∧ nodes_config v = nodes cfg ∧ nodes_state v = states st
         ∧ ((∃ m, getMaintenances client = Response m
                  ∧ maintenances v = resp_maintenances m)
            ∨ (∃ message,
                 getMaintenances client = ExceptionObject (NotSupported message)
                 ∧ maintenances v = [])))
  ∧ (∀ x, get_cluster_view client = Raise x →
       (∃ e, x = AdminError e
          ∧ (getMaintenances client = ExceptionObject e
             ∨ getNodesConfig client no_filter = ExceptionObject e
             ∨ getNodesState client = ExceptionObject e))
       ∨ x = AttributeError)
  ∧ (get_cluster_view client = Raise AttributeError
     ↔ cancelled (getMaintenances client)
       ∨ (¬ failed_hard (getMaintenances client)
          ∧ ¬ failed (getNodesConfig client no_filter)
          ∧ ¬ failed (getNodesState client)
          ∧ (cancelled (getNodesConfig client no_filter)
             ∨ cancelled (getNodesState client)))).
Proof.
  assert (∀ cls message,
            failed_hard (A:=MaintenanceDefinitionResponse)
              (ExceptionObject (OtherException cls message))) as Hother.
  { intros cls message. eexists. split; [done|]. intros ? [=]. }
  assert (∀ message,
            ¬ failed_hard (A:=MaintenanceDefinitionResponse)
                (ExceptionObject (NotSupported message))) as Hsoft.
  { intros message (e & [= <-] & Hne). by destruct (Hne message). }
  assert (∀ A (a : A), ¬ failed_hard (Response a)) as Hresp
    by (by intros A a (e & [=] & _)).
  unfold get_cluster_view.
  destruct (getMaintenances client) as [m|[message|cls message]|clsm] eqn:Hm;
    destruct (getNodesConfig client no_filter) as [cfg|e1|cls1] eqn:Hcfg;
    destruct (getNodesState client) as [st|e2|cls2] eqn:Hst; simpl.
  all: unfold failed, cancelled, answered.
  all: split_and!; [split|..|split].
  all: try (intros [v [=]]).
  all: try (intros v [=]).
  all: try (intros x [=]).
  all: try (intros [=]).
  all: subst; try by eauto 10.
  all: try by (intros (Ha & Hb & Hc & Hd); first
    [ by destruct Ha as [? [=]] | by destruct Hb as [? [=]]
    | by destruct Hc | by destruct Hd; eexists ]).
  all: try by (split_and!; [by eexists|by eexists|auto|by intros [? [=]]]).
  all: try by (intros [[? [=]]|(Hh & Hc & Hs & Hx)]; first
    [ by destruct Hh | by destruct Hc; eexists | by destruct Hs; eexists
    | by destruct Hx as [[? [=]]|[? [=]]] ]).
  all: try by (intros _; right; split_and!;
    [auto|by intros [? [=]]|by intros [? [=]]|first [by left; eexists|by right; eexists]]).
  all: try by (intros _; left; eexists).
  all: right; split_and!;
    [auto|by intros [? [=]]|by intros [? [=]]
    |first [by left; eexists|by right; eexists]].
Qed.

(** X8. A lookup raises the error of the AdminAPI exactly when the filtered
    node-config query failed with that error, and it never raises
    IndexError: the first record is read only from a list that has one. *)
Theorem lookups_raise_query_error client e :
  (∀ node_index,
     (get_node_by_node_index client node_index = Raise (AdminError e)
      ↔ getNodesConfig client (filter_by_node_index node_index)
        = ExceptionObject e)
     ∧ get_node_by_node_index client node_index ≠ Raise IndexError)
  ∧ (∀ name,
     (get_node_by_name client name = Raise (AdminError e)
      ↔ getNodesConfig client (filter_by_name name) = ExceptionObject e)
     ∧ get_node_by_name client name ≠ Raise IndexError).
Proof.
  split; intros q.
  - unfold get_node_by_node_index. fold (filter_by_node_index q).
    destruct (getNodesConfig client (filter_by_node_index q)) as [resp|e'|cls];
      simpl; [destruct (nodes resp)| |]; split; try done.
    + split; [by intros [= ->]|by intros [= ->]].
  - unfold get_node_by_name. fold (filter_by_name q).
    destruct (getNodesConfig client (filter_by_name q)) as [resp|e'|cls];
      simpl; [destruct (nodes resp)| |]; split; try done.
    + split; [by intros [= ->]|by intros [= ->]].
Qed.

End MoreClusterViewFacts.

(** ** More on the groups *)
Section MoreGroups.
Context `{Imports}.
Implicit Types (h : HashOrder NodeID) (client : AdminAPI).
Implicit Types (ncs : list NodeConfig) (ri : ReplicationInfo).
Implicit Types (scope : LocationScope) (g : list NodeID).

(** X9. [group_nodes_by_scope] fetches what it is not given and nothing
    else: with the node configurations (the replication info) missing and
    fetched it does what it does when given them; whatever it raises is
    what a fetch it had to make raised, an error or a [BaseException] that
    is no [Exception], the fetch of the node configurations coming first. *)
Theorem group_nodes_by_scope_fetches h client
    (node_configs : option (list NodeConfig))
    (replication_info : option ReplicationInfo) :
  (∀ resp, getNodesConfig client no_filter = Response resp →
     group_nodes_by_scope h client None replication_info
     = group_nodes_by_scope h client (Some (nodes resp)) replication_info)
  ∧ (∀ ri, getReplicationInfo client = Response ri →
     group_nodes_by_scope h client node_configs None
     = group_nodes_by_scope h client node_configs (Some ri))
  ∧ (∀ e, getNodesConfig client no_filter = ExceptionObject e →
     group_nodes_by_scope h client None replication_info
     = Raise (AdminError e))
  ∧ (∀ x, group_nodes_by_scope h client node_configs replication_info
          = Raise x →
     (∃ e, x = AdminError e
        ∧ ((node_configs = None
            ∧ getNodesConfig client no_filter = ExceptionObject e)
           ∨ (replication_info = None
              ∧ getReplicationInfo client = ExceptionObject e
              ∧ (node_configs = None →
                 ¬ failed (getNodesConfig client no_filter)
                 ∧ answered (getNodesConfig client no_filter)))))
     ∨ (∃ cls, x = BaseExceptionRaised cls
        ∧ ((node_configs = None
            ∧ getNodesConfig client no_filter = BaseExceptionObject cls)
           ∨ (replication_info = None
              ∧ getReplicationInfo client = BaseExceptionObject cls
              ∧ (node_configs = None →
                 answered (getNodesConfig client no_filter)))))).
Proof.
  assert (∀ ncs ri x,
            emit h (accumulate (domain (tolerable_failure_domains ri)) ncs)
            ≠ Raise x) as Hemit.
  { intros ncs ri x.
    pose proof (group_nodes_by_scope_returns h client ncs ri) as Hret.
    unfold group_nodes_by_scope in Hret. simpl in Hret. by rewrite Hret. }
  split_and!.
  - intros resp Hresp. unfold group_nodes_by_scope. by rewrite Hresp.
  - intros ri Hri. unfold group_nodes_by_scope. by rewrite Hri.
  - intros e He. unfold group_nodes_by_scope. by rewrite He.
  - intros x. unfold group_nodes_by_scope.
    destruct node_configs as [ncs|], replication_info as [ri|]; simpl.
    + by intros ?%Hemit.
    + destruct (getReplicationInfo client) as [ri|e|cls] eqn:Hri; simpl.
      * by intros ?%Hemit.
      * intros [= <-]. left. exists e. split; [done|]. right. by split_and!.
      * intros [= <-]. right. exists cls. split; [done|]. right. by split_and!.
    + destruct (getNodesConfig client no_filter) as [resp|e|cls] eqn:Hcfg;
        simpl.
      * by intros ?%Hemit.
      * intros [= <-]. left. exists e. split; [done|]. by left.
      * intros [= <-]. right. exists cls. split; [done|]. by left.
    + destruct (getNodesConfig client no_filter) as [resp|e|cls] eqn:Hcfg;
        simpl.
      * destruct (getReplicationInfo client) as [ri|e|cls] eqn:Hri; simpl.
        -- by intros ?%Hemit.
        -- intros [= <-]. left. exists e. split; [done|]. right.
           split_and!; [done..|]. intros _.
           split; [by intros [e' [=]]|by eexists].
        -- intros [= <-]. right. exists cls. split; [done|]. right.
           split_and!; [done..|]. intros _. by eexists.
      * intros [= <-]. left. exists e. split; [done|]. by left.
      * intros [= <-]. right. exists cls. split; [done|]. by left.
Qed.

Lemma elem_of_groups h scope ncs g :
  g ∈ sorted group_key false (tuples h (accumulate scope ncs))
  ↔ ∃ k, k ∈ (accumulate scope ncs).*1
       ∧ g = sorted node_index false
               (set_iter h (dict_get (accumulate scope ncs) k)).
Proof.
  rewrite sorted_perm, tuples_keys by apply accumulate_keys_NoDup.
  rewrite list_elem_of_fmap. naive_solver.
Qed.

Lemma elem_of_key_group h scope ncs nc0 x :
  x ∈ sorted node_index false
        (set_iter h (dict_get (accumulate scope ncs) (location scope nc0)))
  ↔ ∃ nc, nc ∈ ncs ∧ location scope nc = location scope nc0 ∧ node_id nc = x.
Proof. by rewrite sorted_perm, set_iter_perm, accumulate_get. Qed.

(** X10. The groups are the classes of the nodes by key: every group is
    made of the identities of all the input nodes that have the key of one
    of them, and every input node has such a group. *)
Theorem groups_are_key_classes h client ncs ri :
  ∃ out, group_nodes_by_scope h client (Some ncs) (Some ri) = Return out
    ∧ (∀ g, g ∈ out →
         ∃ nc0, nc0 ∈ ncs
           ∧ ∀ x, x ∈ g ↔
               ∃ nc, nc ∈ ncs
                 ∧ location (domain (tolerable_failure_domains ri)) nc
                   = location (domain (tolerable_failure_domains ri)) nc0
                 ∧ node_id nc = x)
    ∧ (∀ nc0, nc0 ∈ ncs →
         ∃ g, g ∈ out
           ∧ ∀ x, x ∈ g ↔
               ∃ nc, nc ∈ ncs
                 ∧ location (domain (tolerable_failure_domains ri)) nc
                   = location (domain (tolerable_failure_domains ri)) nc0
                 ∧ node_id nc = x).
Proof.
  eexists. split; [apply group_nodes_by_scope_returns|].
  set (scope := domain (tolerable_failure_domains ri)). split.
  - intros g (k & (nc0 & Hnc0 & <-)%accumulate_keys & ->)%elem_of_groups.
    exists nc0. split; [done|]. intros x. apply elem_of_key_group.
  - intros nc0 Hnc0. eexists. split.
    + apply elem_of_groups. exists (location scope nc0). split; [|done].
      apply accumulate_keys. by exists nc0.
    + intros x. apply elem_of_key_group.
Qed.

(** X11. Under a scope other than NODE two nodes have the same key exactly
    when they have the same label, an absent label counting as the empty
    one, at every level of the enum whose value is at least the one of the
    scope: levels of smaller value play no part.  Under NODE they have the
    same key exactly when they have the same index. *)
Theorem location_eq_iff scope (nc nc' : NodeConfig) :
  (scope ≠ NODE →
     (location scope nc = location scope nc'
      ↔ ∀ level, level ∈ LocationScope_members → value scope ≤ value level →
          label nc level = label nc' level))
  ∧ (scope = NODE →
     (location scope nc = location scope nc'
      ↔ nc_node_index nc = nc_node_index nc')).
Proof.
  split.
  - intros Hscope. unfold location. rewrite !decide_True by done. split.
    + intros [= Heq] level Hlevel Hvalue. apply Forall_fmap_ext in Heq.
      eapply Forall_forall in Heq; [done|]. by apply elem_of_key_levels.
    + intros Hlabels. f_equal. apply Forall_fmap_ext_1, Forall_forall.
      intros level [??]%elem_of_key_levels. by apply Hlabels.
  - intros ->. rewrite !location_NODE. split; [by intros [=]|by intros ->].
Qed.

Lemma location_coarser scope1 scope2 (nc nc' : NodeConfig) :
  scope1 ≠ NODE → scope2 ≠ NODE → value scope1 ≤ value scope2 →
  location scope1 nc = location scope1 nc' →
  location scope2 nc = location scope2 nc'.
Proof.
  intros H1 H2 Hle. unfold location. rewrite !decide_True by done.
  intros [= Heq]. f_equal. apply Forall_fmap_ext in Heq.
  apply Forall_fmap_ext_1, Forall_forall.
  intros level [??]%elem_of_key_levels.
  eapply Forall_forall in Heq; [done|]. apply elem_of_key_levels. split; [done|lia].
Qed.

(** X12. Grouping at a finer scope refines grouping at a coarser one: for
    two scopes other than NODE, the first of value at most the value of the
    second, every group got under the first is part of a group got under
    the second. *)
Theorem finer_scope_refines h client ncs ri1 ri2 :
  domain (tolerable_failure_domains ri1) ≠ NODE →
  domain (tolerable_failure_domains ri2) ≠ NODE →
  value (domain (tolerable_failure_domains ri1))
    ≤ value (domain (tolerable_failure_domains ri2)) →
  ∃ out1 out2,
    group_nodes_by_scope h client (Some ncs) (Some ri1) = Return out1
    ∧ group_nodes_by_scope h client (Some ncs) (Some ri2) = Return out2
    ∧ ∀ g1, g1 ∈ out1 → ∃ g2, g2 ∈ out2 ∧ ∀ x, x ∈ g1 → x ∈ g2.
Proof.
  intros H1 H2 Hle. eexists _, _.
  split; [apply group_nodes_by_scope_returns|].
  split; [apply group_nodes_by_scope_returns|].
  set (scope1 := domain (tolerable_failure_domains ri1)) in *.
  set (scope2 := domain (tolerable_failure_domains ri2)) in *.
  intros g1 (k & (nc0 & Hnc0 & <-)%accumulate_keys & ->)%elem_of_groups.
  eexists. split.
  - apply elem_of_groups. exists (location scope2 nc0). split; [|done].
    apply accumulate_keys. by exists nc0.
  - intros x (nc & Hnc & Hloc & Hid)%elem_of_key_group.
    apply elem_of_key_group. exists nc. split_and!; [done| |done].
    by apply (location_coarser scope1 scope2).
Qed.

(** X13. There are as many groups as the input nodes have different keys:
    no more groups than nodes, and no group at all only for no node. *)
Theorem group_count_is_key_count h client ncs ri :
  ∃ out, group_nodes_by_scope h client (Some ncs) (Some ri) = Return out
    ∧ length out
      = length (remove_dups
                  (location (domain (tolerable_failure_domains ri)) <$> ncs))
    ∧ (length out ≤ length ncs)%nat
    ∧ (out = [] ↔ ncs = []).
Proof.
  eexists. split; [apply group_nodes_by_scope_returns|].
  set (scope := domain (tolerable_failure_domains ri)).
  assert (length (sorted group_key false (tuples h (accumulate scope ncs)))
          = length (remove_dups (location scope <$> ncs))) as Hlen.
  { rewrite (Permutation_length (sorted_perm _ _ _)).
    unfold tuples. rewrite length_fmap, <- (length_fmap fst).
    apply Permutation_length, NoDup_Permutation;
      [apply accumulate_keys_NoDup|apply NoDup_remove_dups|].
    intros k.
    rewrite accumulate_keys, elem_of_remove_dups, list_elem_of_fmap.
    naive_solver. }
  assert (length (remove_dups (location scope <$> ncs)) ≤ length ncs)%nat
    as Hle.
  { rewrite <- (length_fmap (location scope) ncs).
    generalize (location scope <$> ncs). intros l.
    induction l as [|k l IH]; simpl; [done|]. case_decide; simpl; lia. }
  split_and!; [done|lia|]. split.
  - intros Hnil. rewrite Hnil in Hlen. simpl in Hlen.
    destruct ncs as [|nc ncs']; [done|]. exfalso.
    assert (location scope nc ∈ remove_dups (location scope <$> nc :: ncs'))
      as Hin by (apply elem_of_remove_dups; left).
    destruct (remove_dups _); [by apply not_elem_of_nil in Hin|done].
  - by intros ->.
Qed.

End MoreGroups.

Section MoreRuns.
#[local] Existing Instance Scenario.imports.
#[local] Existing Instance Fleet.state_imports.
Import Scenario Fleet.

Local Abbreviation A := (mk_node 0 "A" "r1" "d1").
Local Abbreviation B := (mk_node 1 "B" "r1" "d1").
Local Abbreviation answering := (client_of two_nodes two_states).
Local Abbreviation stray := (client_of two_nodes stray_states).

Lemma two_nodes_distinct : NoDup (nc_node_index <$> two_nodes).
Proof. apply (bool_decide_unpack _). vm_compute. exact I. Defined.

Lemma get_nodes_is_set_of_records_witness :
  getNodesConfig answering no_filter = Response {| nodes := two_nodes |}
  ∧ get_nodes answering
    = Return [_get_node_by_node_config A; _get_node_by_node_config B].
Proof.
  split; [reflexivity|].
  destruct (get_nodes_is_set_of_records (H:=imports) answering
              {| nodes := two_nodes |} eq_refl)
    as (s & -> & _ & _ & _ & Hdistinct).
  f_equal. apply Hdistinct. exact two_nodes_distinct.
Defined.

Lemma get_nodes_config_lookup_witness :
  getNodesConfig answering no_filter = Response {| nodes := two_nodes |}
  ∧ ∃ d, get_nodes_config answering = Return d
      ∧ dict_lookup d (_get_node_by_node_config B) = Some B.
Proof.
  split; [reflexivity|].
  destruct (get_nodes_config_lookup (H:=imports) answering
              {| nodes := two_nodes |} eq_refl)
    as (d & Hd & _ & _ & _ & Hdistinct).
  exists d. split; [exact Hd|].
  apply Hdistinct; [exact two_nodes_distinct|].
  apply list_elem_of_further, list_elem_of_here.
Defined.

Lemma get_nodes_state_unknown_index_witness :
  getNodesConfig stray no_filter = Response {| nodes := two_nodes |}
  ∧ getNodesState stray = Response {| states := stray_states |}
  ∧ stray_states = [1; 0] ++ 9 :: []
  ∧ get_nodes_state true stray = Raised (KeyError 9).
Proof.
  split_and!; [reflexivity..|].
  change (KeyError 9) with (KeyError (state_node_index (9 : NodeState))).
  apply (get_nodes_state_unknown_index (H:=imports) true stray
           {| nodes := two_nodes |} {| states := stray_states |}
           [1; 0] 9 [] eq_refl eq_refl eq_refl).
  - intros ns Hns. apply (bool_decide_unpack _).
    apply elem_of_cons in Hns as [->|Hns]; [vm_compute; exact I|].
    apply list_elem_of_singleton in Hns as ->. vm_compute. exact I.
  - apply (bool_decide_unpack _). vm_compute. exact I.
Defined.

Lemma get_nodes_state_failures_witness :
  get_nodes_state false (client_only_config two_nodes)
  = Raised (Exn (AdminError (transport_error "nodes state")))
  ∧ getNodesState (client_only_config two_nodes)
    = ExceptionObject (transport_error "nodes state").
Proof.
  split; [reflexivity|].
  destruct (get_nodes_state_failures (H:=imports) false
              (client_only_config two_nodes)
              (Exn (AdminError (transport_error "nodes state"))) eq_refl)
    as [(e & [= <-] & _ & _ & Hstate)
       |[(k & cfg & st & [=] & _)|(cls & [=] & _)]].
  apply Hstate. by intros [e [=]].
Defined.

Lemma get_cluster_view_returns_iff_witness :
  (∃ v, get_cluster_view answering = Return v)
  ∧ get_cluster_view (client_with two_nodes cancelled_call)
    = Raise AttributeError
  ∧ get_cluster_view (client_config_down cancelled_call) = Raise AttributeError.
Proof.
  split_and!.
  - apply (get_cluster_view_returns_iff (H:=imports) answering).
    split_and!; [by eexists|by eexists|by intros (e & [=] & _)|by intros [? [=]]].
  - apply (get_cluster_view_returns_iff (H:=imports)
             (client_with two_nodes cancelled_call)).
    left. by eexists.
  - apply (get_cluster_view_returns_iff (H:=imports)
             (client_config_down cancelled_call)).
    left. by eexists.
Defined.

Lemma finer_scope_refines_witness :
  domain (tolerable_failure_domains (scope_info S_RACK)) ≠ NODE
  ∧ domain (tolerable_failure_domains (scope_info S_DATACENTER)) ≠ NODE
  ∧ value S_RACK ≤ value S_DATACENTER
  ∧ ∃ out1 out2,
      group_nodes_by_scope (insertion_order NodeID) idle_client
        (Some four_nodes) (Some (scope_info S_RACK)) = Return out1
      ∧ group_nodes_by_scope (insertion_order NodeID) idle_client
          (Some four_nodes) (Some (scope_info S_DATACENTER)) = Return out2
      ∧ ∀ g1, g1 ∈ out1 → ∃ g2, g2 ∈ out2 ∧ ∀ x, x ∈ g1 → x ∈ g2.
Proof.
  assert (S_RACK ≠ NODE) as Hrack by (intros [=]).
  assert (S_DATACENTER ≠ NODE) as Hdc by (intros [=]).
  assert (value S_RACK ≤ value S_DATACENTER) as Hle
    by (vm_compute; intros [=]).
  split_and!; [done..|].
  exact (finer_scope_refines (H:=imports) (insertion_order NodeID) idle_client
           four_nodes (scope_info S_RACK) (scope_info S_DATACENTER)
           Hrack Hdc Hle).
Defined.

End MoreRuns.
